(** * Moltbook Digests: the sidebar generator and the digest pipeline

    The first half of this development embeds [docs/.vitepress/config.mts],
    the VitePress site configuration that builds the "Digests" sidebar from
    the directories under [docs/reports].  The second half models the
    candidate-to-digest pipeline (select, render, publish) that the
    specification describes and that has no source file of its own. *)

From Stdlib Require Import ZArith NArith Ascii String.
From stdpp Require Import gmap strings list sorting.

Local Open Scope Z_scope.
Set Warnings "-register-all,-clear-no-such-hyp".

(** ** JavaScript values used by the configuration *)

Module JS.

(** A JavaScript string is a sequence of UTF-16 code units, each a number
    below 65536. *)
Abbreviation jsstring := (list N).

(** String literals of the source are ASCII. *)
Definition lit (s : string) : jsstring :=
  N_of_ascii <$> list_ascii_of_string s.

(** [x < y] on strings: code unit by code unit, a proper prefix first. *)
Fixpoint lt (x y : jsstring) : bool :=
  match x, y with
  | _, [] => false
  | [], _ :: _ => true
  | a :: x', b :: y' =>
      if (a <? b)%N then true
      else if (b <? a)%N then false
      else lt x' y'
  end.

(** The comparison [Array.prototype.sort] applies when it is called
    without a comparator. *)
Definition SortCompare (x y : jsstring) : Z :=
  if lt x y then -1 else if lt y x then 1 else 0.

(** [x] may stand before [y] in a sorted array. *)
Definition le (x y : jsstring) : Prop := SortCompare x y ≤ 0.

Global Instance le_dec x y : Decision (le x y).
Proof. unfold le. apply _. Defined.

(** [arr.sort()]: the engine's algorithm is its own, the result is the
    stable sorted arrangement; merge sort computes it. *)
Definition sort (l : list jsstring) : list jsstring := merge_sort le l.

(** [arr.slice(0, end)] for an integer [end]. *)
Definition slice0 {A} (l : list A) (e : Z) : list A :=
  let len := Z.of_nat (length l) in
  let final := if e <? 0 then Z.max (len + e) 0 else Z.min e len in
  take (Z.to_nat (Z.max final 0)) l.

(** [s.endsWith(suffix)]. *)
Definition endsWith (s suffix : jsstring) : bool :=
  let start := (Z.of_nat (length s) - Z.of_nat (length suffix)) in
  if start <? 0 then false
  else bool_decide (drop (Z.to_nat start) s = suffix).

(** [s.replace(/\.md$/, '')]: the regular expression is tried at each
    start position from the left; it matches where the rest of the input
    is exactly [.md], and the match is replaced by the empty string. *)
Fixpoint replace_md_end (s : jsstring) : jsstring :=
  if bool_decide (s = lit ".md") then []
  else match s with
       | [] => []
       | c :: s' => c :: replace_md_end s'
       end.

(** [s.split('/')], as [path.join] cuts a path into segments. *)
Fixpoint split_slash_aux (cur : jsstring) (s : jsstring) : list jsstring :=
  match s with
  | [] => [reverse cur]
  | c :: s' =>
      if bool_decide (c = 47%N) then reverse cur :: split_slash_aux [] s'
      else split_slash_aux (c :: cur) s'
  end.
Definition split_slash (s : jsstring) : list jsstring := split_slash_aux [] s.

End JS.

(** ** The file system and [node:path], as far as the configuration uses them

    The model is a snapshot of a tree of directories and other entries,
    each entry under the name [readdirSync] reports for it.  It covers
    missing paths and paths that hold something other than a directory.
    It does not cover what a tree of names cannot show: a directory that
    may not be read (EACCES), a name that is not valid UTF-8 and so is not
    found again under the name reported for it, a symbolic link, or a
    change between two calls.  Statements that say a call returns are
    statements about the trees of this model. *)

Module Node.

(** A file system entry is a directory with named entries, in the order
    [readdirSync] reports them, or something that is not a directory. *)
Inductive node :=
  | File
  | Dir (entries : list (JS.jsstring * node)).

(** The build runs in a working directory of a file system; [cwd] is
    [process.cwd()] cut into its segments below the root. *)
Record env := { root : node; cwd : list JS.jsstring }.

Inductive errno := ENOENT | ENOTDIR.

Inductive result (A : Type) :=
  | Ok (a : A)
  | Throw (e : errno).
Arguments Ok {A} a.
Arguments Throw {A} e.

(** Sequencing of calls that may throw. *)
Definition bind {A B} (r : result A) (f : A → result B) : result B :=
  match r with
  | Ok a => f a
  | Throw e => Throw e
  end.

Notation "'try' x := r 'in' k" := (bind r (fun x => k))
  (at level 10, x name, r at level 100, k at level 200,
   format "'[v' 'try'  x  :=  r  'in' '/' k ']'").

(** An absolute path after [path.join]'s normalisation: its segments, and
    whether the joined string ended in a separator (which [normalize] keeps). *)
Record path := { segments : list JS.jsstring; trailing : bool }.

(** [normalize]: empty segments and [.] vanish, [..] removes the segment
    before it and is dropped at the root. *)
Definition normalize_step (stack : list JS.jsstring) (seg : JS.jsstring)
    : list JS.jsstring :=
  if bool_decide (seg = [] ∨ seg = JS.lit ".") then stack
  else if bool_decide (seg = JS.lit "..") then tail stack
  else seg :: stack.

Definition normalize (segs : list JS.jsstring) : list JS.jsstring :=
  reverse (foldl normalize_step [] segs).

(** [join(process.cwd(), 'docs', dirFromDocsRoot)]. *)
Definition join_cwd_docs (e : env) (dirFromDocsRoot : JS.jsstring) : path :=
  {| segments :=
       normalize (cwd e ++ [JS.lit "docs"] ++ JS.split_slash dirFromDocsRoot);
     trailing := JS.endsWith dirFromDocsRoot (JS.lit "/") |}.

(** The first entry of a directory listing with the given name. *)
Fixpoint child (name : JS.jsstring) (es : list (JS.jsstring * node))
    : option node :=
  match es with
  | [] => None
  | (n, c) :: es' => if bool_decide (n = name) then Some c else child name es'
  end.

(** Walking a normalised path down from a node. *)
Fixpoint resolve (p : list JS.jsstring) (n : node) : result node :=
  match p with
  | [] => Ok n
  | s :: p' =>
      match n with
      | File => Throw ENOTDIR
      | Dir es =>
          match child s es with
          | Some c => resolve p' c
          | None => Throw ENOENT
          end
      end
  end.

(** What the system finds at a path; a trailing separator demands a
    directory. *)
Definition stat (e : env) (p : path) : result node :=
  match resolve (segments p) (root e) with
  | Ok File => if trailing p then Throw ENOTDIR else Ok File
  | r => r
  end.

(** [existsSync(p)]: never throws. *)
Definition existsSync (e : env) (p : path) : bool :=
  match stat e p with
  | Ok _ => true
  | Throw _ => false
  end.

(** A [Dirent] of [readdirSync(p, { withFileTypes: true })]. *)
Record Dirent := { name : JS.jsstring; isDirectory : bool }.

Definition dirent_of (nc : JS.jsstring * node) : Dirent :=
  {| name := nc.1;
     isDirectory := match nc.2 with Dir _ => true | File => false end |}.

Definition readdirSync_withFileTypes (e : env) (p : path) : result (list Dirent) :=
  match stat e p with
  | Ok (Dir es) => Ok (dirent_of <$> es)
  | Ok File => Throw ENOTDIR
  | Throw c => Throw c
  end.

(** [readdirSync(p)]: the names only. *)
Definition readdirSync (e : env) (p : path) : result (list JS.jsstring) :=
  match stat e p with
  | Ok (Dir es) => Ok (es.*1)
  | Ok File => Throw ENOTDIR
  | Throw c => Throw c
  end.

(** Entry names of a real directory: not empty, not [.] or [..], without a
    separator, and no name twice. *)
Definition wf_name (s : JS.jsstring) : bool :=
  negb (bool_decide (s = [])) && negb (bool_decide (s = JS.lit "."))
  && negb (bool_decide (s = JS.lit "..")) && negb (bool_decide (47%N ∈ s)).

Fixpoint wf_node (n : node) : bool :=
  match n with
  | File => true
  | Dir es =>
      forallb (fun nc => wf_name nc.1 && wf_node nc.2) es
      && bool_decide (NoDup (es.*1))
  end.

Definition wf_env (e : env) : bool := wf_node (root e).

End Node.

(** ** [docs/.vitepress/config.mts] *)

Module Config.
Import Node.

Definition listDirNames (e : env) (dirFromDocsRoot : JS.jsstring)
    : result (list JS.jsstring) :=
  let abs := join_cwd_docs e dirFromDocsRoot in
  if negb (existsSync e abs) then Ok []
  else
    try ds := readdirSync_withFileTypes e abs in
    Ok (name <$> filter (fun d => isDirectory d = true) ds).

Definition listMdBasenames (e : env) (dirFromDocsRoot : JS.jsstring)
    : result (list JS.jsstring) :=
  let abs := join_cwd_docs e dirFromDocsRoot in
  if negb (existsSync e abs) then Ok []
  else
    try fs := readdirSync e abs in
    Ok (filter (fun name => name ≠ JS.lit "index")
          (JS.replace_md_end <$>
             filter (fun f => JS.endsWith f (JS.lit ".md") = true) fs)).

Record SidebarItem := { text : JS.jsstring; link : JS.jsstring }.

Record MonthGroup :=
  { group_text : JS.jsstring; collapsed : bool; items : list SidebarItem }.

Record SidebarSection :=
  { section_text : JS.jsstring; section_items : list MonthGroup }.

(** The default of [makeItems]'s parameter [limit]. *)
Definition makeItems_limit_default : Z := 62.

Definition makeItems (e : env) (prefix dirFromDocsRoot : JS.jsstring) (limit : Z)
    : result (list SidebarItem) :=
  try names0 := listMdBasenames e dirFromDocsRoot in
  let names := JS.slice0 (reverse (JS.sort names0)) limit in
  Ok ((fun name =>
         {| text := name;
            link := JS.lit "/" ++ prefix ++ JS.lit "/" ++ name |}) <$> names).

(** The default of [makeMonthGroups]'s parameter [limitMonths]. *)
Definition makeMonthGroups_limit_default : Z := 24.

(** [arr.map(f)] for a callback that may throw: left to right, the first
    exception ends it. *)
Fixpoint map_throwing {A B} (f : A → result B) (l : list A) : result (list B) :=
  match l with
  | [] => Ok []
  | a :: l' => try b := f a in try bs := map_throwing f l' in Ok (b :: bs)
  end.

Definition makeMonthGroups (e : env) (limitMonths : Z) : result (list MonthGroup) :=
  let root := JS.lit "reports" in
  try ms := listDirNames e root in
  let months := JS.slice0 (reverse (JS.sort ms)) limitMonths in
  map_throwing (fun m =>
      try its := makeItems e (JS.lit "reports/" ++ m) (root ++ JS.lit "/" ++ m) 62 in
      Ok {| group_text := m; collapsed := true; items := its |})
    months.

(** [themeConfig.sidebar] of the exported configuration. *)
Definition sidebar (e : env) : result (list SidebarSection) :=
  try gs := makeMonthGroups e 36 in
  Ok [ {| section_text := JS.lit "Digests"; section_items := gs |} ].

End Config.

(** ** The candidate-to-digest pipeline

    The repository holds the published digests and the site configuration;
    the pipeline that produces the digests has no source file.  Every
    definition of this module is therefore modelled from the specification. *)

Module Pipeline.

(** Modelled from the spec: a Candidate, section 3 (the source of the
    Fetcher is missing).  Identity is [id]; [fetched_at] is a timestamp in
    the publication timezone. *)
Record Candidate := {
  id : string;
  title : string;
  post_url : string;
  external_url : option string;
  raw_body : string;
  fetched_at : Z
}.

(** Modelled from the spec: section 7's error taxonomy (no source file
    declares it). *)
Inductive Error :=
  | SourceUnavailable
  | MalformedResponse
  | TemplateViolation
  | AlreadyPublished
  | PublishIOError.

(** Modelled from the spec: a record of the candidate feed, section 6 (the
    feed parser is missing); [id], [title], [post_url], [body] and
    [fetched_at] are required, [external_url] is optional. *)
Record FeedRecord := {
  feed_id : option string;
  feed_title : option string;
  feed_post_url : option string;
  feed_body : option string;
  feed_fetched_at : option Z;
  feed_external_url : option string
}.

(** Modelled from the spec: what the external source answers (the HTTP
    client is an external collaborator); a timeout surfaces like an
    unreachable source. *)
Inductive SourceResponse :=
  | Unreachable
  | TimedOut
  | Response (records : list FeedRecord).

(** Modelled from the spec: validation at the Fetcher boundary, section 9
    (the Fetcher is missing). *)
Definition parse (r : FeedRecord) : option Candidate :=
  i ← feed_id r; t ← feed_title r; u ← feed_post_url r;
  b ← feed_body r; f ← feed_fetched_at r;
  Some {| id := i; title := t; post_url := u;
          external_url := feed_external_url r; raw_body := b; fetched_at := f |}.

(** Modelled from the spec: [fetch], section 4.1 (the Fetcher is missing). *)
Definition fetch (resp : SourceResponse) : Error + list Candidate :=
  match resp with
  | Unreachable | TimedOut => inl SourceUnavailable
  | Response rs =>
      match mapM parse rs with
      | Some cs => inr cs
      | None => inl MalformedResponse
      end
  end.

(** Modelled from the spec: SelectionCriteria, section 3 (the Selector is
    missing). *)
Record SelectionCriteria := {
  min_count : nat;
  max_count : nat;
  exclusion : list (Candidate → bool);
  dedup_window : gset string
}.

(** Modelled from the spec: a DigestEntry and a Digest, section 3 (the
    Renderer is missing). *)
Record DigestEntry := {
  entry_title : string;
  entry_post_url : string;
  entry_external_url : option string;
  summary_points : list string;
  task_block : string
}.

(** Modelled from the spec: a Digest, section 3: the date key and the
    entries in their order. *)
Record Digest := { date_key : string; entries : list DigestEntry }.

(** Modelled from the spec: the parts the specification leaves pluggable or
    external: the quality heuristic, the summariser and task-block writer,
    the markdown template, and the path derived from a date key. *)
Record Capabilities := {
  score : Candidate → Z;
  summarize : Candidate → list string;
  write_task_block : Candidate → string;
  render_digest : list DigestEntry → string → string;
  path_of : string → string
}.

(** Modelled from the spec: the Selector's order, section 4.2 (the Selector
    is missing): higher score first; on equal score the later fetch first;
    then by id. *)
Definition ranks_before (score : Candidate → Z) (a b : Candidate) : Prop :=
  score b < score a
  ∨ (score a = score b
     ∧ (fetched_at b < fetched_at a
        ∨ (fetched_at a = fetched_at b ∧ String.leb (id a) (id b) = true))).

Global Instance ranks_before_dec score a b : Decision (ranks_before score a b).
Proof. unfold ranks_before. apply _. Defined.

(** Modelled from the spec: step 2 of [select]: a candidate is flagged
    when one of the exclusion predicates matches it. *)
Definition excluded (crit : SelectionCriteria) (c : Candidate) : bool :=
  existsb (fun p => p c) (exclusion crit).

(** Modelled from the spec: steps 1 and 2 of [select]: the candidates that
    are neither already published nor flagged. *)
Definition qualifying (candidates : list Candidate) (crit : SelectionCriteria)
    : list Candidate :=
  let fresh := filter (fun c => id c ∉ dedup_window crit) candidates in
  filter (fun c => excluded crit c = false) fresh.

(** Modelled from the spec: [select], section 4.2 (the Selector is
    missing). *)
Definition select (score : Candidate → Z) (candidates : list Candidate)
    (crit : SelectionCriteria) : list Candidate :=
  take (max_count crit)
       (merge_sort (ranks_before score) (qualifying candidates crit)).

(** Modelled from the spec: "contains post_url as a substring", section
    3: [needle] occurs in [hay]. *)
Fixpoint is_substring (needle hay : string) : bool :=
  String.prefix needle hay
  || match hay with
     | EmptyString => false
     | String _ hay' => is_substring needle hay'
     end.

(** Modelled from the spec: the per-entry template contract, section 4.3. *)
Definition entry_conforms (e : DigestEntry) : bool :=
  (6 <=? length (summary_points e))%nat
  && (length (summary_points e) <=? 10)%nat
  && is_substring (entry_post_url e) (task_block e).

(** Modelled from the spec: [render], section 4.3 (the Renderer is
    missing): the entry is built, the invariant is checked before
    emission. *)
Definition render (cap : Capabilities) (c : Candidate) : Error + DigestEntry :=
  let e := {| entry_title := title c;
              entry_post_url := post_url c;
              entry_external_url := external_url c;
              summary_points := summarize cap c;
              task_block := write_task_block cap c |} in
  if entry_conforms e then inr e else inl TemplateViolation.

(** Modelled from the spec: the caller's policy for a malformed entry:
    drop, continue. *)
Definition render_or_drop (cap : Capabilities) (c : Candidate)
    : option (Candidate * DigestEntry) :=
  match render cap c with
  | inr e => Some (c, e)
  | inl _ => None
  end.

(** Modelled from the spec: the repository state, sections 3 and 5 (the
    Publisher is missing): the digest files by path, the temporary files of
    a write in progress, and the PublicationRecord. *)
Record Repo := {
  files : gmap string string;
  temp_files : gmap string string;
  publication_record : gset string
}.

(** Modelled from the spec: where a publish can fail, section 7's
    PublishIOError: while the temporary file is written (some of the text
    is on disk), at the rename, or while the ids are appended (the first
    [k] are recorded). *)
Inductive Fault :=
  | NoFault
  | TempWriteFails (partial : string)
  | RenameFails
  | AppendFails (k : nat).

(** Modelled from the spec: the steps of the temp-write-then-rename
    discipline, section 5, and of the history append, section 4.4 (the
    Publisher is missing). *)
Definition write_temp (tmp content : string) (s : Repo) : Repo :=
  {| files := files s;
     temp_files := <[tmp := content]> (temp_files s);
     publication_record := publication_record s |}.

Definition remove_temp (tmp : string) (s : Repo) : Repo :=
  {| files := files s;
     temp_files := delete tmp (temp_files s);
     publication_record := publication_record s |}.

Definition rename_temp (tmp path : string) (s : Repo) : Repo :=
  match temp_files s !! tmp with
  | Some content =>
      {| files := <[path := content]> (files s);
         temp_files := delete tmp (temp_files s);
         publication_record := publication_record s |}
  | None => s
  end.

Definition append_record (ids : list string) (s : Repo) : Repo :=
  {| files := files s;
     temp_files := temp_files s;
     publication_record := publication_record s ∪ list_to_set ids |}.

(** Modelled from the spec: rollback of a write, section 7: the file at
    [path] is put back as it was. *)
Definition restore_file (path : string) (old : option string) (s : Repo) : Repo :=
  {| files := match old with
              | Some content => <[path := content]> (files s)
              | None => delete path (files s)
              end;
     temp_files := temp_files s;
     publication_record := publication_record s |}.

(** Modelled from the spec: rollback of an append, section 4.4: the ids
    it added are taken out again. *)
Definition unappend_record (added : list string) (s : Repo) : Repo :=
  {| files := files s;
     temp_files := temp_files s;
     publication_record := publication_record s ∖ list_to_set added |}.

(** Modelled from the spec: PublishResult, section 4.4. *)
Inductive PublishResult :=
  | PublishSucceeded
  | PublishFailed (e : Error).

(** Modelled from the spec: [publish], sections 4.4 and 5 (the Publisher is
    missing): refuse an existing file unless told to overwrite; write a
    temporary file under a name not in use, rename it to the path of the
    date key, append the ids of the published candidates; roll back
    whatever a failing step left.
    The entries do not carry the candidates' ids, so the ids to record are
    passed along with the digest. *)
Definition publish (cap : Capabilities) (overwrite : bool) (fault : Fault)
    (d : Digest) (ids : list string) (s : Repo) : PublishResult * Repo :=
  let path := path_of cap (date_key d) in
  let old := files s !! path in
  if bool_decide (is_Some old) && negb overwrite
  then (PublishFailed AlreadyPublished, s)
  else
    let tmp := fresh (dom (temp_files s)) in
    let content := render_digest cap (entries d) (date_key d) in
    match fault with
    | TempWriteFails partial =>
        (PublishFailed PublishIOError, remove_temp tmp (write_temp tmp partial s))
    | RenameFails =>
        (PublishFailed PublishIOError, remove_temp tmp (write_temp tmp content s))
    | AppendFails k =>
        let written := rename_temp tmp path (write_temp tmp content s) in
        let added := filter (fun i => i ∉ publication_record s) (take k ids) in
        let appended := append_record (take k ids) written in
        (PublishFailed PublishIOError,
         restore_file path old (unappend_record added appended))
    | NoFault =>
        (PublishSucceeded,
         append_record ids (rename_temp tmp path (write_temp tmp content s)))
    end.

(** Modelled from the spec: what one run is given: the source's answer,
    the bounds and exclusion predicates, the date key, the publish mode and
    the behaviour of the file system. *)
Record RunInput := {
  response : SourceResponse;
  run_min_count : nat;
  run_max_count : nat;
  run_exclusion : list (Candidate → bool);
  run_date_key : string;
  overwrite : bool;
  fault : Fault
}.

(** Modelled from the spec: the terminal states of the Orchestrator,
    section 4.5. *)
Inductive Outcome :=
  | Published (d : Digest)
  | SkippedEmpty
  | Failed (reason : Error).

(** Modelled from the spec: what a run did, section 4.5: the candidates
    the Selector returned, the ones whose entries went into the published
    digest, and the terminal state. *)
Record Report := {
  selected : list Candidate;
  rendered : list (Candidate * DigestEntry);
  outcome : Outcome
}.

(** Modelled from the spec: the criteria of a run, sections 3 and 9: the
    dedup window is the PublicationRecord as the run finds it. *)
Definition criteria_of (i : RunInput) (s : Repo) : SelectionCriteria :=
  {| min_count := run_min_count i;
     max_count := run_max_count i;
     exclusion := run_exclusion i;
     dedup_window := publication_record s |}.

(** Modelled from the spec: the Orchestrator, section 4.5 (missing):
    Fetch, Select, Render per entry, Publish. *)
Definition run (cap : Capabilities) (i : RunInput) (s : Repo) : Report * Repo :=
  match fetch (response i) with
  | inl e => ({| selected := []; rendered := []; outcome := Failed e |}, s)
  | inr candidates =>
      let sel := select (score cap) candidates (criteria_of i s) in
      let ren := omap (render_or_drop cap) sel in
      match ren with
      | [] => ({| selected := sel; rendered := []; outcome := SkippedEmpty |}, s)
      | _ :: _ =>
          let d := {| date_key := run_date_key i; entries := ren.*2 |} in
          match publish cap (overwrite i) (fault i) d (id <$> ren.*1) s with
          | (PublishSucceeded, s') =>
              ({| selected := sel; rendered := ren; outcome := Published d |}, s')
          | (PublishFailed e, s') =>
              ({| selected := sel; rendered := []; outcome := Failed e |}, s')
          end
      end
  end.

(** Modelled from the spec: successive runs on one repository, the
    PublicationRecord threaded from each to the next, section 9. *)
Fixpoint runs (cap : Capabilities) (inputs : list RunInput) (s : Repo)
    : list Report * Repo :=
  match inputs with
  | [] => ([], s)
  | i :: inputs' =>
      let '(r, s1) := run cap i s in
      let '(rs, s2) := runs cap inputs' s1 in
      (r :: rs, s2)
  end.

End Pipeline.

(** ** Sample repositories *)

Module Samples.
Import Node.

(** A checkout at [/repo] with two months of digests. *)
Definition two_months : env :=
  {| cwd := [JS.lit "repo"];
     root := Dir [(JS.lit "repo", Dir [(JS.lit "docs", Dir [
       (JS.lit "index.md", File);
       (JS.lit "reports", Dir [
          (JS.lit "2026-01", Dir [
             (JS.lit "2026-01-30.md", File);
             (JS.lit "index.md", File);
             (JS.lit "2026-01-31.md", File);
             (JS.lit "notes.txt", File)]);
          (JS.lit "README.md", File);
          (JS.lit "2026-02", Dir [(JS.lit "2026-02-01.md", File)])])])])] |}.

(** A checkout whose [docs] has no [reports] at all. *)
Definition no_reports : env :=
  {| cwd := [JS.lit "repo"];
     root := Dir [(JS.lit "repo", Dir [(JS.lit "docs", Dir [
       (JS.lit "index.md", File)])])] |}.

(** A checkout where [docs/reports] is a regular file. *)
Definition reports_is_a_file : env :=
  {| cwd := [JS.lit "repo"];
     root := Dir [(JS.lit "repo", Dir [(JS.lit "docs", Dir [
       (JS.lit "index.md", File);
       (JS.lit "reports", File)])])] |}.

(** A checkout with forty month directories, named by the single code
    units 48 to 87, each holding one digest. *)
Definition forty_months : env :=
  {| cwd := [JS.lit "repo"];
     root := Dir [(JS.lit "repo", Dir [(JS.lit "docs", Dir [
       (JS.lit "reports",
        Dir ((fun n => ([N.of_nat n], Dir [(JS.lit "01.md", File)]))
               <$> seq 48 40))])])] |}.

(** The day number a digest name of January or February 2026 stands for. *)
Definition day_of_2026 (s : JS.jsstring) : Z :=
  if bool_decide (s = JS.lit "2026-01-30") then 30
  else if bool_decide (s = JS.lit "2026-01-31") then 31
  else if bool_decide (s = JS.lit "2026-02-01") then 32
  else 0.

(** A checkout whose [docs/notes] holds names that test the [.md] ending:
    a doubled ending, the index page, a directory with the ending, a text
    file, the bare ending and a name without the dot. *)
Definition md_corner_cases : env :=
  {| cwd := [JS.lit "repo"];
     root := Dir [(JS.lit "repo", Dir [(JS.lit "docs", Dir [
       (JS.lit "notes", Dir [
          (JS.lit "a.md.md", File);
          (JS.lit "index.md", File);
          (JS.lit "folder.md", Dir []);
          (JS.lit "b.txt", File);
          (JS.lit ".md", File);
          (JS.lit "md", File)])])])] |}.

(** The checkout [two_months] with the entries of January reported in
    another order. *)
Definition january_reordered : env :=
  {| cwd := [JS.lit "repo"];
     root := Dir [(JS.lit "repo", Dir [(JS.lit "docs", Dir [
       (JS.lit "reports", Dir [
          (JS.lit "2026-01", Dir [
             (JS.lit "notes.txt", File);
             (JS.lit "2026-01-31.md", File);
             (JS.lit "2026-01-30.md", File);
             (JS.lit "index.md", File)])])])])] |}.

(** The reports of [two_months] in a checkout at [/home/ci/work], beside
    other files and directories. *)
Definition two_months_elsewhere : env :=
  {| cwd := [JS.lit "home"; JS.lit "ci"; JS.lit "work"];
     root := Dir [
       (JS.lit "etc", Dir []);
       (JS.lit "home", Dir [(JS.lit "ci", Dir [(JS.lit "work", Dir [
         (JS.lit "package.json", File);
         (JS.lit "docs", Dir [
           (JS.lit "drafts", Dir [(JS.lit "todo.md", File)]);
           (JS.lit "reports", Dir [
              (JS.lit "2026-01", Dir [
                 (JS.lit "2026-01-30.md", File);
                 (JS.lit "index.md", File);
                 (JS.lit "2026-01-31.md", File);
                 (JS.lit "notes.txt", File)]);
              (JS.lit "README.md", File);
              (JS.lit "2026-02", Dir [(JS.lit "2026-02-01.md", File)])]);
           (JS.lit "index.md", File)])])])])] |}.

End Samples.

(** ** Sample runs of the pipeline *)

Module SampleRuns.
Import Pipeline.
Local Open Scope string_scope.

(** Capabilities that compute: the score is the fetch time, the
    summariser gives one point per character of the body, the task block
    names the post, a digest file lists its titles. *)
Definition cap : Capabilities :=
  {| score := fetched_at;
     summarize := fun c => (fun a => String a EmptyString)
                             <$> list_ascii_of_string (raw_body c);
     write_task_block := fun c => "read " ++ post_url c ++ " and reply";
     render_digest := fun es key =>
       key ++ ":" ++ String.concat "," (entry_title <$> es);
     path_of := fun key => "docs/reports/" ++ key ++ ".md" |}.

Definition post (i : string) (body : string) (at_ : Z) : Candidate :=
  {| id := i; title := "post " ++ i; post_url := "https://m.example/" ++ i;
     external_url := None; raw_body := body; fetched_at := at_ |}.

Definition feed_of (c : Candidate) : FeedRecord :=
  {| feed_id := Some (id c); feed_title := Some (title c);
     feed_post_url := Some (post_url c); feed_body := Some (raw_body c);
     feed_fetched_at := Some (fetched_at c);
     feed_external_url := external_url c |}.

(** Three posts: the second has four summary points only. *)
Definition p1 : Candidate := post "a" "1234567" 10.
Definition p2 : Candidate := post "b" "1234" 20.
Definition p3 : Candidate := post "c" "12345678" 30.

Definition input (key : string) (posts : list Candidate) (f : Fault) : RunInput :=
  {| response := Response (feed_of <$> posts);
     run_min_count := 8; run_max_count := 12; run_exclusion := [];
     run_date_key := key; overwrite := false; fault := f |}.

Definition empty_repo : Repo :=
  {| files := ∅; temp_files := ∅; publication_record := ∅ |}.

(** Fifteen posts with ids [A] to [O], fetched at times 0 to 14. *)
Definition feed15 : list Candidate :=
  (fun n => post (String (ascii_of_nat (65 + n)%nat) EmptyString) "1234567"
              (Z.of_nat n)) <$> seq 0 15.

(** Bounds 8 to 12; the three earliest posts are flagged, [D] and [E] are
    already published. *)
Definition eight_to_twelve : SelectionCriteria :=
  {| min_count := 8; max_count := 12;
     exclusion := [fun c => (fetched_at c <? 3)%Z];
     dedup_window := {["D"; "E"]} |}.

(** Criteria that take at most two of at least one. *)
Definition one_to_two : SelectionCriteria :=
  {| min_count := 1; max_count := 2; exclusion := [];
     dedup_window := {["a"]} |}.

End SampleRuns.

(** * Properties of the sidebar generator *)

Import Node Config.

(** ** The order of JavaScript strings *)

Section js_order.

Lemma lt_irrefl x : JS.lt x x = false.
Proof.
  induction x as [|a x IH]; simpl; [done|].
  by rewrite N.ltb_irrefl.
Qed.

Lemma lt_asym x y : JS.lt x y = true → JS.lt y x = false.
Proof.
  revert y. induction x as [|a x IH]; intros [|b y]; simpl; try done.
  destruct (N.ltb_spec a b), (N.ltb_spec b a); try done; try lia.
  apply IH.
Qed.

Lemma lt_trans x y z : JS.lt x y = true → JS.lt y z = true → JS.lt x z = true.
Proof.
  revert y z. induction x as [|a x IH]; intros [|b y] [|c z]; simpl; try done.
  destruct (N.ltb_spec a b), (N.ltb_spec b a), (N.ltb_spec b c),
    (N.ltb_spec c b), (N.ltb_spec a c), (N.ltb_spec c a);
    try done; try lia.
  apply IH.
Qed.

Lemma lt_connex x y : JS.lt x y = false → JS.lt y x = false → x = y.
Proof.
  revert y. induction x as [|a x IH]; intros [|b y]; simpl; try done.
  destruct (N.ltb_spec a b), (N.ltb_spec b a); try done.
  intros ??. f_equal; [lia | by apply IH].
Qed.

Lemma le_not_lt x y : JS.le x y ↔ JS.lt y x = false.
Proof.
  unfold JS.le, JS.SortCompare.
  destruct (JS.lt x y) eqn:Hxy.
  - apply lt_asym in Hxy. rewrite Hxy. split; [done | lia].
  - destruct (JS.lt y x); split; (done || lia).
Qed.

Lemma lt_le x y : JS.lt x y = true → JS.le x y.
Proof. intros H. apply le_not_lt. by apply lt_asym. Qed.

Lemma le_neq_lt x y : JS.le x y → x ≠ y → JS.lt x y = true.
Proof.
  intros Hle Hne. apply le_not_lt in Hle.
  destruct (JS.lt x y) eqn:Hxy; [done|].
  exfalso. apply Hne. by apply lt_connex.
Qed.

Global Instance le_refl : Reflexive JS.le.
Proof. intros x. apply le_not_lt, lt_irrefl. Qed.

Global Instance le_total : Total JS.le.
Proof.
  intros x y. destruct (JS.lt y x) eqn:H.
  - right. by apply lt_le.
  - left. by apply le_not_lt.
Qed.

Global Instance le_trans : Transitive JS.le.
Proof.
  intros x y z Hxy Hyz. apply le_not_lt.
  destruct (JS.lt z x) eqn:Hzx; [|done].
  apply le_not_lt in Hxy, Hyz.
  destruct (JS.lt y z) eqn:Hlt.
  - by rewrite (lt_trans y z x) in Hxy.
  - assert (y = z) by (by apply lt_connex). subst. congruence.
Qed.

Global Instance le_antisym : AntiSymm (=) JS.le.
Proof. intros x y Hxy Hyx. apply le_not_lt in Hxy, Hyx. by apply lt_connex. Qed.

End js_order.

(** ** [sort], [reverse] and [slice] *)

Section js_arrays.

Lemma sort_Permutation l : JS.sort l ≡ₚ l.
Proof. apply merge_sort_Permutation. Qed.

Lemma sort_StronglySorted l : StronglySorted JS.le (JS.sort l).
Proof. apply StronglySorted_merge_sort; apply _. Qed.

(** Whatever algorithm the engine runs, the sorted arrangement of an
    array of strings is this one. *)
Lemma sort_unique l l' : Sorted JS.le l' → l' ≡ₚ l → l' = JS.sort l.
Proof.
  intros Hs Hp. apply (Sorted_unique JS.le); [done | |].
  - apply Sorted_merge_sort; apply _.
  - by rewrite Hp, sort_Permutation.
Qed.

Lemma elem_of_sort x l : x ∈ JS.sort l ↔ x ∈ l.
Proof. by rewrite sort_Permutation. Qed.

Lemma length_sort l : length (JS.sort l) = length l.
Proof. by rewrite sort_Permutation. Qed.

Lemma StronglySorted_reverse {A} (R : relation A) l :
  StronglySorted R l → StronglySorted (flip R) (reverse l).
Proof.
  induction 1 as [|x l Hl IH Hx]; [constructor|].
  rewrite reverse_cons. apply StronglySorted_app; repeat split.
  - intros y z Hy Hz. apply list_elem_of_singleton in Hz as ->.
    rewrite elem_of_reverse in Hy. rewrite Forall_forall in Hx.
    unfold flip. by apply Hx.
  - done.
  - repeat constructor.
Qed.

Lemma StronglySorted_take {A} (R : relation A) n l :
  StronglySorted R l → StronglySorted R (take n l).
Proof.
  intros H. rewrite <-(take_drop n l) in H.
  by apply StronglySorted_app in H as (_ & ? & _).
Qed.

Lemma reverse_sort_descending l : StronglySorted (flip JS.le) (reverse (JS.sort l)).
Proof. apply StronglySorted_reverse, sort_StronglySorted. Qed.

(** [slice(0, e)] keeps a prefix. *)
Lemma slice0_take {A} (l : list A) e : ∃ n, JS.slice0 l e = take n l.
Proof. unfold JS.slice0. eauto. Qed.

Lemma slice0_nonneg {A} (l : list A) e : 0 ≤ e → JS.slice0 l e = take (Z.to_nat e) l.
Proof.
  intros He. unfold JS.slice0.
  destruct (Z.ltb_spec e 0); [lia|].
  destruct (Z.le_ge_cases e (Z.of_nat (length l))).
  - f_equal. lia.
  - rewrite !take_ge; [done | lia | lia].
Qed.

Lemma slice0_all {A} (l : list A) e : Z.of_nat (length l) ≤ e → JS.slice0 l e = l.
Proof. intros. rewrite slice0_nonneg by lia. apply take_ge. lia. Qed.

Lemma length_slice0 {A} (l : list A) e :
  0 ≤ e → length (JS.slice0 l e) = Nat.min (Z.to_nat e) (length l).
Proof. intros. rewrite slice0_nonneg by done. apply length_take. Qed.

Lemma slice0_descending l e :
  StronglySorted (flip JS.le) (JS.slice0 (reverse (JS.sort l)) e).
Proof.
  destruct (slice0_take (reverse (JS.sort l)) e) as [n ->].
  apply StronglySorted_take, reverse_sort_descending.
Qed.

Lemma elem_of_slice0 {A} (l : list A) e x : x ∈ JS.slice0 l e → x ∈ l.
Proof.
  destruct (slice0_take l e) as [n ->]. apply (subseteq_take n l).
Qed.

(** What a slice of the descending arrangement leaves out is below
    everything it keeps. *)
Lemma slice0_keeps_greatest l e x y :
  NoDup l →
  x ∈ JS.slice0 (reverse (JS.sort l)) e →
  y ∈ l → y ∉ JS.slice0 (reverse (JS.sort l)) e →
  JS.lt y x = true.
Proof.
  intros Hnd Hx Hy Hny.
  destruct (slice0_take (reverse (JS.sort l)) e) as [n Hn].
  rewrite Hn in Hx, Hny.
  pose proof (reverse_sort_descending l) as Hs.
  assert (NoDup (reverse (JS.sort l))) as Hnd'.
  { by rewrite reverse_Permutation, sort_Permutation. }
  rewrite <-(take_drop n (reverse (JS.sort l))) in Hs, Hnd'.
  assert (y ∈ drop n (reverse (JS.sort l))) as Hyd.
  { assert (y ∈ take n (reverse (JS.sort l)) ++ drop n (reverse (JS.sort l))) as Hin.
    { rewrite take_drop. by rewrite elem_of_reverse, elem_of_sort. }
    apply elem_of_app in Hin as [?|?]; done. }
  apply StronglySorted_app in Hs as (Hs & _ & _).
  apply NoDup_app in Hnd' as (_ & Hdisj & _).
  apply le_neq_lt.
  - apply (Hs x y); [done..].
  - intros ->. by apply (Hdisj x).
Qed.

(** A slice shows nothing the array does not hold, and how much it shows
    depends on the length of the array alone. *)
Lemma slice0_submseteq {A} (l : list A) e : JS.slice0 l e ⊆+ l.
Proof.
  destruct (slice0_take l e) as [n ->]. apply sublist_submseteq, sublist_take.
Qed.

Lemma length_slice0_length {A B} (l : list A) (k : list B) e :
  length l = length k → length (JS.slice0 l e) = length (JS.slice0 k e).
Proof. intros H. unfold JS.slice0. by rewrite !length_take, H. Qed.

Lemma descending_slice_submseteq l e :
  JS.slice0 (reverse (JS.sort l)) e ⊆+ l.
Proof.
  etrans; [apply slice0_submseteq|].
  apply Permutation_submseteq. by rewrite reverse_Permutation, sort_Permutation.
Qed.

Lemma length_descending_slice l e :
  length (JS.slice0 (reverse (JS.sort l)) e) = length (JS.slice0 l e).
Proof. apply length_slice0_length. by rewrite length_reverse, length_sort. Qed.

Lemma descending_slice_all l e :
  Z.of_nat (length l) ≤ e → JS.slice0 (reverse (JS.sort l)) e ≡ₚ l.
Proof.
  intros H. rewrite slice0_all by (by rewrite length_reverse, length_sort).
  by rewrite reverse_Permutation, sort_Permutation.
Qed.

End js_arrays.

(** ** Strings of file names *)

Section js_strings.

Lemma endsWith_spec s suffix :
  JS.endsWith s suffix = true ↔ ∃ p, s = p ++ suffix.
Proof.
  unfold JS.endsWith. split.
  - destruct (Z.ltb_spec (Z.of_nat (length s) - Z.of_nat (length suffix)) 0);
      [done|].
    intros Heq%bool_decide_eq_true.
    exists (take (Z.to_nat (Z.of_nat (length s) - Z.of_nat (length suffix))) s).
    etrans; [symmetry; apply (take_drop (Z.to_nat
      (Z.of_nat (length s) - Z.of_nat (length suffix))))|].
    by f_equal.
  - intros [p ->]. rewrite length_app.
    destruct (Z.ltb_spec (Z.of_nat (length p + length suffix)
                          - Z.of_nat (length suffix)) 0); [lia|].
    apply bool_decide_eq_true.
    replace (Z.to_nat _) with (length p) by lia.
    by rewrite drop_app_length.
Qed.

(** On a name that ends in [.md] the replacement removes that ending. *)
Lemma replace_md_end_app p : JS.replace_md_end (p ++ JS.lit ".md") = p.
Proof.
  induction p as [|c p IH].
  - reflexivity.
  - cbn [app JS.replace_md_end]. rewrite bool_decide_eq_false_2.
    + by rewrite IH.
    + intros Heq. apply (f_equal length) in Heq.
      cbn in Heq. rewrite length_app in Heq. cbn in Heq. lia.
Qed.

(** A name without [.md] at its end is left as it is. *)
Lemma replace_md_end_other s :
  JS.endsWith s (JS.lit ".md") = false → JS.replace_md_end s = s.
Proof.
  induction s as [|c s IH]; intros Hs.
  - reflexivity.
  - cbn [JS.replace_md_end]. rewrite bool_decide_eq_false_2.
    + f_equal. apply IH.
      destruct (JS.endsWith s (JS.lit ".md")) eqn:Hs'; [|done].
      apply endsWith_spec in Hs' as [p ->].
      assert (JS.endsWith (c :: p ++ JS.lit ".md") (JS.lit ".md") = true) as H.
      { apply endsWith_spec. by exists (c :: p). }
      congruence.
    + intros Heq.
      assert (JS.endsWith (c :: s) (JS.lit ".md") = true) as H.
      { apply endsWith_spec. exists []. by rewrite Heq. }
      congruence.
Qed.

Lemma split_slash_aux_segment cur a rest :
  47%N ∉ a →
  JS.split_slash_aux cur (a ++ 47%N :: rest)
  = (reverse cur ++ a) :: JS.split_slash_aux [] rest.
Proof.
  revert cur. induction a as [|c a IH]; intros cur Ha; cbn [app JS.split_slash_aux].
  - rewrite bool_decide_eq_true_2 by done. by rewrite app_nil_r.
  - apply not_elem_of_cons in Ha as [Hc Ha].
    rewrite bool_decide_eq_false_2 by done.
    rewrite IH by done. by rewrite reverse_cons, <-app_assoc.
Qed.

Lemma split_slash_aux_last cur a :
  47%N ∉ a → JS.split_slash_aux cur a = [reverse cur ++ a].
Proof.
  revert cur. induction a as [|c a IH]; intros cur Ha; cbn [JS.split_slash_aux].
  - by rewrite app_nil_r.
  - apply not_elem_of_cons in Ha as [Hc Ha].
    rewrite bool_decide_eq_false_2 by done.
    rewrite IH by done. by rewrite reverse_cons, <-app_assoc.
Qed.

(** The path of a month directory below [reports]. *)
Lemma split_slash_reports m :
  47%N ∉ m →
  JS.split_slash (JS.lit "reports" ++ JS.lit "/" ++ m) = [JS.lit "reports"; m].
Proof.
  intros Hm. unfold JS.split_slash.
  change (JS.lit "/" ++ m) with (47%N :: m).
  rewrite split_slash_aux_segment.
  - by rewrite split_slash_aux_last.
  - apply (bool_decide_unpack _). by vm_compute.
Qed.

End js_strings.

(** ** Paths and directories *)

Section file_system.

Lemma wf_name_spec s :
  wf_name s = true ↔
  s ≠ [] ∧ s ≠ JS.lit "." ∧ s ≠ JS.lit ".." ∧ 47%N ∉ s.
Proof.
  unfold wf_name. rewrite !andb_true_iff, !negb_true_iff.
  rewrite !bool_decide_eq_false. naive_solver.
Qed.

Lemma wf_node_Dir es :
  wf_node (Dir es) = true ↔
  Forall (fun nc => wf_name nc.1 = true ∧ wf_node nc.2 = true) es ∧ NoDup (es.*1).
Proof.
  cbn [wf_node]. rewrite andb_true_iff, bool_decide_eq_true.
  rewrite forallb_forall, Forall_forall.
  split; intros [H ?]; split; try done.
  - intros nc Hin. apply andb_true_iff, H. by apply list_elem_of_In.
  - intros nc Hin. apply andb_true_iff, H. by apply list_elem_of_In.
Qed.

Lemma child_elem_of name es c : child name es = Some c → (name, c) ∈ es.
Proof.
  induction es as [|[n c'] es IH]; cbn [child]; [done|].
  case_bool_decide; intros ?; simplify_eq; [left | right; auto].
Qed.

Lemma child_NoDup name es c :
  NoDup (es.*1) → (name, c) ∈ es → child name es = Some c.
Proof.
  induction es as [|[n c'] es IH]; cbn [child fmap list_fmap];
    intros Hnd Hin.
  - by apply elem_of_nil in Hin.
  - apply NoDup_cons in Hnd as [Hn Hnd].
    apply elem_of_cons in Hin as [Heq|Hin].
    + simplify_eq. by rewrite bool_decide_eq_true_2.
    + rewrite bool_decide_eq_false_2; [by apply IH|].
      cbn. intros ->. apply Hn. apply list_elem_of_fmap. by exists (name, c).
Qed.

Lemma resolve_app p q n :
  resolve (p ++ q) n = Node.bind (resolve p n) (resolve q).
Proof.
  revert n. induction p as [|s p IH]; intros n; cbn [app resolve]; [done|].
  destruct n as [|es]; [done|]. destruct (child s es); [apply IH | done].
Qed.

Lemma resolve_wf p n n' :
  wf_node n = true → resolve p n = Ok n' → wf_node n' = true.
Proof.
  revert n. induction p as [|s p IH]; intros n Hwf; cbn [resolve].
  - by intros [= <-].
  - destruct n as [|es]; [done|].
    destruct (child s es) as [c|] eqn:Hc; [|done].
    apply IH. apply wf_node_Dir in Hwf as [Hall _].
    rewrite Forall_forall in Hall.
    apply child_elem_of in Hc. by apply (Hall (s, c)).
Qed.

Lemma normalize_snoc segs m :
  wf_name m = true → normalize (segs ++ [m]) = normalize segs ++ [m].
Proof.
  intros (? & ? & ? & _)%wf_name_spec. unfold normalize.
  rewrite foldl_app. cbn [foldl]. unfold normalize_step at 1.
  rewrite bool_decide_eq_false_2 by naive_solver.
  rewrite bool_decide_eq_false_2 by done.
  by rewrite reverse_cons.
Qed.

(** A path names a directory exactly when [stat] finds one, whatever its
    trailing separator. *)
Lemma stat_Dir e p es :
  stat e p = Ok (Dir es) ↔ resolve (segments p) (root e) = Ok (Dir es).
Proof.
  unfold stat. destruct (resolve (segments p) (root e)) as [[|es']|];
    [destruct (trailing p) | |]; naive_solver.
Qed.

(** A directory that [reports] lists is found again under its name. *)
Lemma stat_month e es m es_m :
  wf_env e = true →
  stat e (join_cwd_docs e (JS.lit "reports")) = Ok (Dir es) →
  (m, Dir es_m) ∈ es →
  stat e (join_cwd_docs e (JS.lit "reports" ++ JS.lit "/" ++ m)) = Ok (Dir es_m).
Proof.
  intros Hwf Hst Hin.
  apply stat_Dir in Hst. apply stat_Dir.
  cbn [segments join_cwd_docs] in *.
  assert (wf_node (Dir es) = true) as Hes by (by eapply resolve_wf).
  apply wf_node_Dir in Hes as [Hall Hnd].
  rewrite Forall_forall in Hall.
  destruct (Hall _ Hin) as [Hm _]. cbn in Hm.
  pose proof Hm as (_ & _ & _ & Hslash)%wf_name_spec.
  rewrite split_slash_reports by done.
  change (JS.split_slash (JS.lit "reports")) with [JS.lit "reports"] in Hst.
  replace (cwd e ++ [JS.lit "docs"] ++ [JS.lit "reports"; m])
    with ((cwd e ++ [JS.lit "docs"] ++ [JS.lit "reports"]) ++ [m])
    by (by rewrite <-!app_assoc).
  rewrite normalize_snoc by done.
  rewrite resolve_app, Hst. cbn [Node.bind resolve].
  by rewrite (child_NoDup m es (Dir es_m)).
Qed.

End file_system.

(** ** The functions of the configuration *)

Section config.

Lemma map_throwing_Ok {A B} (f : A → result B) l bs :
  map_throwing f l = Ok bs ↔ Forall2 (fun a b => f a = Ok b) l bs.
Proof.
  revert bs. induction l as [|a l IH]; intros bs; cbn [map_throwing].
  - split; [intros [= <-]; constructor | by inversion 1].
  - split.
    + destruct (f a) as [b|] eqn:Hb; cbn [Node.bind]; [|done].
      destruct (map_throwing f l) as [bs'|] eqn:Hbs; cbn [Node.bind]; [|done].
      intros [= <-]. constructor; [done|]. by apply IH.
    + inversion 1 as [|? b ? bs' Hb Hbs]; simplify_eq.
      apply IH in Hbs. by rewrite Hb, Hbs.
Qed.

Lemma map_throwing_total {A B} (f : A → result B) l :
  Forall (fun a => ∃ b, f a = Ok b) l → ∃ bs, map_throwing f l = Ok bs.
Proof.
  induction 1 as [|a l [b Hb] _ [bs Hbs]]; cbn [map_throwing]; [by eexists|].
  rewrite Hb, Hbs. by eexists.
Qed.

Lemma existsSync_false e p : existsSync e p = false ↔ ∃ c, stat e p = Throw c.
Proof.
  unfold existsSync. destruct (stat e p); split; try done.
  - by intros [? ?].
  - by eexists.
Qed.

Lemma listDirNames_absent e d :
  existsSync e (join_cwd_docs e d) = false → listDirNames e d = Ok [].
Proof. unfold listDirNames. by intros ->. Qed.

Lemma listDirNames_Dir e d es :
  stat e (join_cwd_docs e d) = Ok (Dir es) →
  listDirNames e d
  = Ok (name <$> filter (fun d => isDirectory d = true) (dirent_of <$> es)).
Proof.
  intros Hst. unfold listDirNames, existsSync, readdirSync_withFileTypes.
  by rewrite Hst.
Qed.

Lemma listDirNames_File e d :
  stat e (join_cwd_docs e d) = Ok File → listDirNames e d = Throw ENOTDIR.
Proof.
  intros Hst. unfold listDirNames, existsSync, readdirSync_withFileTypes.
  by rewrite Hst.
Qed.

Lemma listMdBasenames_absent e d :
  existsSync e (join_cwd_docs e d) = false → listMdBasenames e d = Ok [].
Proof. unfold listMdBasenames. by intros ->. Qed.

Lemma listMdBasenames_Dir e d es :
  stat e (join_cwd_docs e d) = Ok (Dir es) →
  listMdBasenames e d
  = Ok (filter (fun name => name ≠ JS.lit "index")
          (JS.replace_md_end <$>
             filter (fun f => JS.endsWith f (JS.lit ".md") = true) (es.*1))).
Proof.
  intros Hst. unfold listMdBasenames, existsSync, readdirSync.
  by rewrite Hst.
Qed.

Lemma listMdBasenames_File e d :
  stat e (join_cwd_docs e d) = Ok File → listMdBasenames e d = Throw ENOTDIR.
Proof.
  intros Hst. unfold listMdBasenames, existsSync, readdirSync.
  by rewrite Hst.
Qed.

(** The basenames are the names, other than [index], whose [.md] file the
    directory holds. *)
Lemma elem_of_listMdBasenames e d fs names n :
  readdirSync e (join_cwd_docs e d) = Ok fs →
  listMdBasenames e d = Ok names →
  n ∈ names ↔ n ≠ JS.lit "index" ∧ n ++ JS.lit ".md" ∈ fs.
Proof.
  intros Hfs. unfold listMdBasenames, existsSync.
  assert (∃ es, stat e (join_cwd_docs e d) = Ok (Dir es)) as [es Hst].
  { unfold readdirSync in Hfs.
    destruct (stat e (join_cwd_docs e d)) as [[|es]|]; [done | by exists es | done]. }
  rewrite Hst. cbn [negb]. rewrite Hfs. cbn [Node.bind]. intros [= <-].
  rewrite list_elem_of_filter, list_elem_of_fmap. split.
  - intros (Hn & f & -> & Hf). split; [done|].
    apply list_elem_of_filter in Hf as [[p ->]%endsWith_spec Hf].
    by rewrite replace_md_end_app.
  - intros [Hn Hf]. split; [done|]. exists (n ++ JS.lit ".md").
    split; [by rewrite replace_md_end_app|].
    apply list_elem_of_filter. split; [|done].
    apply endsWith_spec. by exists n.
Qed.

(** The names [listDirNames] returns are those of the entries that are
    directories. *)
Lemma elem_of_dir_names (es : list (JS.jsstring * node)) m :
  m ∈ name <$> filter (fun d => isDirectory d = true) (dirent_of <$> es)
  ↔ ∃ es_m, (m, Dir es_m) ∈ es.
Proof.
  rewrite list_elem_of_fmap. split.
  - intros (d & -> & Hd). apply list_elem_of_filter in Hd as [Hdir Hd].
    apply list_elem_of_fmap in Hd as ([n c] & -> & Hin).
    cbn in *. destruct c as [|es_m]; [done|]. by exists es_m.
  - intros [es_m Hin]. exists (dirent_of (m, Dir es_m)). split; [done|].
    apply list_elem_of_filter. split; [done|].
    apply list_elem_of_fmap. by exists (m, Dir es_m).
Qed.

Lemma dir_names_NoDup (es : list (JS.jsstring * node)) :
  NoDup (es.*1) →
  NoDup (name <$> filter (fun d => isDirectory d = true) (dirent_of <$> es)).
Proof.
  induction es as [|[n c] es IH]; cbn [fmap list_fmap]; [constructor|].
  intros [Hn Hnd]%NoDup_cons. rewrite filter_cons.
  destruct (decide _) as [Hdir|Hdir]; [|by apply IH].
  cbn [fmap list_fmap]. apply NoDup_cons. split; [|by apply IH].
  cbn. intros Hin. apply Hn.
  apply elem_of_dir_names in Hin as [es_m Hin].
  apply list_elem_of_fmap. by exists (n, Dir es_m).
Qed.

(** [makeItems] keeps a prefix of the descending arrangement of the
    basenames and links each name below the prefix. *)
Lemma makeItems_Ok e prefix d limit names :
  listMdBasenames e d = Ok names →
  makeItems e prefix d limit
  = Ok ((fun name => {| text := name;
                        link := JS.lit "/" ++ prefix ++ JS.lit "/" ++ name |})
          <$> JS.slice0 (reverse (JS.sort names)) limit).
Proof. intros H. unfold makeItems. by rewrite H. Qed.

Lemma makeItems_text e prefix d limit names its :
  listMdBasenames e d = Ok names →
  makeItems e prefix d limit = Ok its →
  text <$> its = JS.slice0 (reverse (JS.sort names)) limit.
Proof.
  intros Hn. rewrite (makeItems_Ok _ _ _ _ names) by done. intros [= <-].
  rewrite <-list_fmap_compose. apply list_fmap_id.
Qed.

Lemma makeItems_Throw e prefix d limit c :
  listMdBasenames e d = Throw c → makeItems e prefix d limit = Throw c.
Proof. intros H. unfold makeItems. by rewrite H. Qed.

Lemma makeMonthGroups_absent e limit :
  existsSync e (join_cwd_docs e (JS.lit "reports")) = false →
  makeMonthGroups e limit = Ok [].
Proof.
  intros H. unfold makeMonthGroups. rewrite listDirNames_absent by done.
  cbn [Node.bind]. by destruct (slice0_take (reverse (JS.sort [])) limit) as [[|n] ->].
Qed.

(** With a directory at [docs/reports] of a well-formed file system,
    [makeMonthGroups] returns: one collapsed group per kept month, made by
    [makeItems] from the directory of that month. *)
Lemma makeMonthGroups_Dir e limit es :
  wf_env e = true →
  stat e (join_cwd_docs e (JS.lit "reports")) = Ok (Dir es) →
  ∃ groups,
    makeMonthGroups e limit = Ok groups
    ∧ group_text <$> groups
      = JS.slice0 (reverse (JS.sort
          (name <$> filter (fun d => isDirectory d = true) (dirent_of <$> es))))
          limit
    ∧ Forall (fun g =>
        collapsed g = true
        ∧ ∃ es_m,
            (group_text g, Dir es_m) ∈ es
            ∧ stat e (join_cwd_docs e
                        (JS.lit "reports" ++ JS.lit "/" ++ group_text g))
              = Ok (Dir es_m)
            ∧ makeItems e (JS.lit "reports/" ++ group_text g)
                (JS.lit "reports" ++ JS.lit "/" ++ group_text g) 62
              = Ok (items g)) groups.
Proof.
  intros Hwf Hst. unfold makeMonthGroups.
  rewrite (listDirNames_Dir _ _ es) by done. cbn [Node.bind].
  set (months := JS.slice0 _ limit).
  assert (Forall (fun m => ∃ es_m, (m, Dir es_m) ∈ es) months) as Hmonths.
  { apply Forall_forall. intros m Hm. apply elem_of_slice0 in Hm.
    rewrite elem_of_reverse, elem_of_sort in Hm. by apply elem_of_dir_names. }
  clearbody months.
  induction Hmonths as [|m months [es_m Hin] _ (groups & Hgs & Htexts & Hall)].
  - exists []. by repeat split.
  - pose proof (stat_month e es m es_m Hwf Hst Hin) as Hm.
    pose proof (listMdBasenames_Dir _ _ _ Hm) as Hnames.
    pose proof (makeItems_Ok e (JS.lit "reports/" ++ m) _ 62 _ Hnames) as Hits.
    eexists ({| group_text := m; collapsed := true; items := _ |} :: groups).
    cbn [map_throwing]. rewrite Hits, Hgs. cbn [Node.bind].
    split; [done|]. split; [by cbn; rewrite Htexts|].
    constructor; [|done]. split; [done|]. by exists es_m.
Qed.

End config.

(** ** The configuration at sample repositories *)

Section evaluations.

Example lit_md : JS.lit ".md" = [46; 109; 100]%N.
Proof. reflexivity. Qed.

Example lt_prefix_first : JS.lt (JS.lit "2026-01") (JS.lit "2026-01-30") = true.
Proof. reflexivity. Qed.

Example sort_months :
  JS.sort [JS.lit "2026-01"; JS.lit "2025-12"; JS.lit "2026-02"]
  = [JS.lit "2025-12"; JS.lit "2026-01"; JS.lit "2026-02"].
Proof. reflexivity. Qed.

Example slice0_negative_end : JS.slice0 [1; 2; 3; 4] (-1) = [1; 2; 3].
Proof. reflexivity. Qed.

Example slice0_past_the_end : JS.slice0 [1; 2; 3; 4] 62 = [1; 2; 3; 4].
Proof. reflexivity. Qed.

Example endsWith_md : JS.endsWith (JS.lit "2026-01-30.md") (JS.lit ".md") = true.
Proof. reflexivity. Qed.

Example endsWith_short : JS.endsWith (JS.lit "md") (JS.lit ".md") = false.
Proof. reflexivity. Qed.

Example replace_md_end_last_only :
  JS.replace_md_end (JS.lit "a.md.md") = JS.lit "a.md".
Proof. reflexivity. Qed.

Example split_slash_month :
  JS.split_slash (JS.lit "reports/2026-01") = [JS.lit "reports"; JS.lit "2026-01"].
Proof. reflexivity. Qed.

Example normalize_dots :
  normalize [JS.lit "repo"; JS.lit "docs"; JS.lit "x"; JS.lit ".."; JS.lit ".";
             []; JS.lit "reports"]
  = [JS.lit "repo"; JS.lit "docs"; JS.lit "reports"].
Proof. reflexivity. Qed.

Example listDirNames_two_months :
  listDirNames Samples.two_months (JS.lit "reports")
  = Ok [JS.lit "2026-01"; JS.lit "2026-02"].
Proof. reflexivity. Qed.

Example listMdBasenames_january :
  listMdBasenames Samples.two_months (JS.lit "reports/2026-01")
  = Ok [JS.lit "2026-01-30"; JS.lit "2026-01-31"].
Proof. reflexivity. Qed.

Example makeItems_limit_one :
  makeItems Samples.two_months (JS.lit "reports/2026-01")
    (JS.lit "reports/2026-01") 1
  = Ok [ {| text := JS.lit "2026-01-31";
            link := JS.lit "/reports/2026-01/2026-01-31" |} ].
Proof. reflexivity. Qed.

Example sidebar_two_months :
  sidebar Samples.two_months
  = Ok [ {| section_text := JS.lit "Digests";
            section_items :=
              [ {| group_text := JS.lit "2026-02"; collapsed := true;
                   items := [ {| text := JS.lit "2026-02-01";
                                 link := JS.lit "/reports/2026-02/2026-02-01" |} ] |};
                {| group_text := JS.lit "2026-01"; collapsed := true;
                   items := [ {| text := JS.lit "2026-01-31";
                                 link := JS.lit "/reports/2026-01/2026-01-31" |};
                              {| text := JS.lit "2026-01-30";
                                 link := JS.lit "/reports/2026-01/2026-01-30" |} ] |} ] |} ].
Proof. reflexivity. Qed.

(** A regular file at the path: [existsSync] is true and [readdirSync]
    raises; with a trailing separator the path does not exist. *)
Example listDirNames_of_a_file :
  listDirNames Samples.two_months (JS.lit "index.md") = Throw ENOTDIR.
Proof. reflexivity. Qed.

Example listDirNames_of_a_file_slash :
  listDirNames Samples.two_months (JS.lit "index.md/") = Ok [].
Proof. reflexivity. Qed.

(** With 63 names the limit of 62 drops the least one. *)
Example limit_62_drops_the_63rd :
  JS.slice0 (reverse (JS.sort ((fun n => [N.of_nat n]) <$> seq 48 63))) 62
  = (fun n => [N.of_nat n]) <$> reverse (seq 49 62).
Proof. by vm_compute. Qed.

End evaluations.

(** ** The sidebar *)

Section sidebar_claims.

(** Names in descending lexical order are in descending order of date
    wherever the lexical order of the names follows their dates. *)
Lemma descending_by_date (date : JS.jsstring → Z) (l : list JS.jsstring) :
  StronglySorted (flip JS.le) l →
  (∀ a b, a ∈ l → b ∈ l → JS.le a b → date a ≤ date b) →
  StronglySorted (flip Z.le) (date <$> l).
Proof.
  induction 1 as [|x l Hl IH Hx]; intros Hdate; cbn [fmap list_fmap];
    constructor.
  - apply IH. intros a b Ha Hb. apply Hdate; by right.
  - rewrite Forall_fmap. rewrite Forall_forall in Hx |- *.
    intros y Hy. cbn. unfold flip. apply Hdate; [by right | by left |].
    by apply Hx.
Qed.

(** C1: for every well-formed file system in which [docs/reports] is a
    directory, [makeMonthGroups] returns the month groups in descending
    lexical order of the directory names, and the items of every group in
    descending lexical order of the basenames of that month's directory.
    The groups are directories of [docs/reports], as many as a slice of
    the listing has, and all of them when the limit does not cut; the
    items of a group are basenames of [.md] entries of its directory other
    than [index], 62 of them or all.  So wherever the lexical order of the
    names shown follows their dates, groups and items are in
    reverse-chronological order, with nothing consulted but the names. *)
Theorem makeMonthGroups_reverse_lexical e limit es :
  wf_env e = true →
  stat e (join_cwd_docs e (JS.lit "reports")) = Ok (Dir es) →
  ∃ groups,
    makeMonthGroups e limit = Ok groups
    ∧ group_text <$> groups
      = JS.slice0 (reverse (JS.sort
          (name <$> filter (fun d => isDirectory d = true) (dirent_of <$> es))))
          limit
    ∧ StronglySorted (flip JS.le) (group_text <$> groups)
    ∧ group_text <$> groups
      ⊆+ name <$> filter (fun d => isDirectory d = true) (dirent_of <$> es)
    ∧ length groups
      = length (JS.slice0
          (name <$> filter (fun d => isDirectory d = true) (dirent_of <$> es))
          limit)
    ∧ (Z.of_nat (length (filter (fun d => isDirectory d = true)
                           (dirent_of <$> es))) ≤ limit →
       group_text <$> groups
       ≡ₚ name <$> filter (fun d => isDirectory d = true) (dirent_of <$> es)
       ∧ ∀ m es_m, (m, Dir es_m) ∈ es → m ∈ group_text <$> groups)
    ∧ Forall (fun g =>
        ∃ es_m names,
          (group_text g, Dir es_m) ∈ es
          ∧ listMdBasenames e (JS.lit "reports" ++ JS.lit "/" ++ group_text g)
            = Ok names
          ∧ (∀ n, n ∈ names ↔ n ≠ JS.lit "index" ∧ n ++ JS.lit ".md" ∈ es_m.*1)
          ∧ text <$> items g = JS.slice0 (reverse (JS.sort names)) 62
          ∧ StronglySorted (flip JS.le) (text <$> items g)
          ∧ text <$> items g ⊆+ names
          ∧ length (items g) = Nat.min 62 (length names)
          ∧ ((length names ≤ 62)%nat → text <$> items g ≡ₚ names)) groups
    ∧ ∀ date : JS.jsstring → Z,
        (∀ a b, a ∈ group_text <$> groups → b ∈ group_text <$> groups →
                JS.le a b → date a ≤ date b) →
        (∀ g a b, g ∈ groups → a ∈ text <$> items g → b ∈ text <$> items g →
                  JS.le a b → date a ≤ date b) →
        StronglySorted (flip Z.le) (date <$> (group_text <$> groups))
        ∧ Forall (fun g => StronglySorted (flip Z.le) (date <$> (text <$> items g)))
            groups.
Proof.
  intros Hwf Hst.
  destruct (makeMonthGroups_Dir e limit es Hwf Hst) as (groups & Hgs & Htexts & Hall).
  assert (Forall (fun g =>
        ∃ es_m names,
          (group_text g, Dir es_m) ∈ es
          ∧ listMdBasenames e (JS.lit "reports" ++ JS.lit "/" ++ group_text g)
            = Ok names
          ∧ (∀ n, n ∈ names ↔ n ≠ JS.lit "index" ∧ n ++ JS.lit ".md" ∈ es_m.*1)
          ∧ text <$> items g = JS.slice0 (reverse (JS.sort names)) 62
          ∧ StronglySorted (flip JS.le) (text <$> items g)
          ∧ text <$> items g ⊆+ names
          ∧ length (items g) = Nat.min 62 (length names)
          ∧ ((length names ≤ 62)%nat → text <$> items g ≡ₚ names)) groups)
    as Hitems.
  { eapply Forall_impl; [exact Hall|]. cbv beta.
    intros g (_ & es_m & Hin & Hm & Hits).
    pose proof (listMdBasenames_Dir _ _ _ Hm) as Hnames.
    set (names := filter _ (JS.replace_md_end <$> _)) in Hnames.
    assert (readdirSync e (join_cwd_docs e
              (JS.lit "reports" ++ JS.lit "/" ++ group_text g)) = Ok (es_m.*1))
      as Hfs by (unfold readdirSync; by rewrite Hm).
    pose proof (makeItems_text _ _ _ _ _ _ Hnames Hits) as Heq.
    exists es_m, names. split; [done|]. split; [done|].
    split; [intros n; by apply (elem_of_listMdBasenames _ _ _ _ n Hfs Hnames)|].
    split; [done|]. rewrite Heq.
    split; [apply slice0_descending|].
    split; [apply descending_slice_submseteq|].
    split.
    - rewrite <-(length_fmap text), Heq, length_slice0 by lia.
      by rewrite length_reverse, length_sort.
    - intros Hlen. apply descending_slice_all. lia. }
  exists groups. split; [done|]. split; [done|].
  split; [rewrite Htexts; apply slice0_descending|].
  split; [rewrite Htexts; apply descending_slice_submseteq|].
  split.
  { by rewrite <-(length_fmap group_text), Htexts, length_descending_slice. }
  split.
  { intros Hlimit.
    assert (group_text <$> groups
            ≡ₚ name <$> filter (fun d => isDirectory d = true) (dirent_of <$> es))
      as Hperm.
    { rewrite Htexts. apply descending_slice_all. by rewrite length_fmap. }
    split; [done|]. intros m es_m Hin. rewrite Hperm.
    apply elem_of_dir_names. by exists es_m. }
  split; [done|].
  intros date Hmonths Hdays. split.
  - apply descending_by_date; [|done]. rewrite Htexts. apply slice0_descending.
  - apply Forall_forall. intros g Hg.
    rewrite Forall_forall in Hitems.
    destruct (Hitems g Hg) as (es_m & names & _ & _ & _ & _ & Hs & _).
    apply descending_by_date; [done|]. intros a b. by apply Hdays.
Qed.

Lemma makeMonthGroups_reverse_lexical_witness :
  wf_env Samples.two_months = true
  ∧ ∃ groups,
      makeMonthGroups Samples.two_months 36 = Ok groups
      ∧ group_text <$> groups = [JS.lit "2026-02"; JS.lit "2026-01"]
      ∧ (fun g => text <$> items g) <$> groups
        = [[JS.lit "2026-02-01"]; [JS.lit "2026-01-31"; JS.lit "2026-01-30"]]
      ∧ (fun g => Samples.day_of_2026 <$> (text <$> items g)) <$> groups
        = [[32]; [31; 30]]
      ∧ StronglySorted (flip JS.le) (group_text <$> groups)
      ∧ group_text <$> groups ≡ₚ [JS.lit "2026-01"; JS.lit "2026-02"]
      ∧ Forall (fun g => StronglySorted (flip Z.le)
                  (Samples.day_of_2026 <$> (text <$> items g))) groups.
Proof.
  split; [reflexivity|].
  destruct (makeMonthGroups_reverse_lexical Samples.two_months 36 _
              eq_refl eq_refl)
    as (groups & Hgs & Htexts & Hsorted & _ & _ & Hall & Hitems & Hdate).
  exists groups. split; [done|].
  assert (group_text <$> groups ≡ₚ [JS.lit "2026-01"; JS.lit "2026-02"]) as Hperm.
  { apply Hall. by vm_compute. }
  vm_compute in Hgs. injection Hgs as <-.
  split; [reflexivity|]. split; [reflexivity|]. split; [reflexivity|].
  split; [done|]. split; [exact Hperm|].
  repeat first [by unfold flip; cbn | constructor].
Defined.

(** C7: with at most 62 digest basenames in a directory, [makeItems] with
    its limit of 62 (the default, and the value [makeMonthGroups] passes)
    drops none of them: it returns one item per basename, each linked below
    the prefix; so every [.md] file of the directory other than [index.md]
    has its item. *)
Theorem makeItems_limit_never_truncates e prefix d names :
  listMdBasenames e d = Ok names →
  (length names ≤ 62)%nat →
  ∃ its,
    makeItems e prefix d makeItems_limit_default = Ok its
    ∧ text <$> its = reverse (JS.sort names)
    ∧ text <$> its ≡ₚ names
    ∧ length its = length names
    ∧ (∀ n, n ∈ names →
         {| text := n; link := JS.lit "/" ++ prefix ++ JS.lit "/" ++ n |} ∈ its)
    ∧ ∀ fs n,
        readdirSync e (join_cwd_docs e d) = Ok fs →
        n ++ JS.lit ".md" ∈ fs → n ≠ JS.lit "index" →
        {| text := n; link := JS.lit "/" ++ prefix ++ JS.lit "/" ++ n |} ∈ its.
Proof.
  intros Hnames Hlen. unfold makeItems_limit_default.
  rewrite (makeItems_Ok _ _ _ _ names) by done.
  rewrite slice0_all by (rewrite length_reverse, length_sort; lia).
  eexists. split; [done|].
  assert (text <$> ((fun name => {| text := name;
            link := JS.lit "/" ++ prefix ++ JS.lit "/" ++ name |})
          <$> reverse (JS.sort names)) = reverse (JS.sort names)) as Htext.
  { rewrite <-list_fmap_compose. apply list_fmap_id. }
  split; [done|]. split; [by rewrite Htext, reverse_Permutation, sort_Permutation|].
  split; [by rewrite length_fmap, length_reverse, length_sort|].
  assert (∀ n, n ∈ names →
    {| text := n; link := JS.lit "/" ++ prefix ++ JS.lit "/" ++ n |}
    ∈ (fun name => {| text := name;
            link := JS.lit "/" ++ prefix ++ JS.lit "/" ++ name |})
          <$> reverse (JS.sort names)) as Hall.
  { intros n Hn. apply list_elem_of_fmap. exists n. split; [done|].
    by rewrite elem_of_reverse, elem_of_sort. }
  split; [done|].
  intros fs n Hfs Hfile Hn. apply Hall.
  by apply (elem_of_listMdBasenames e d fs names n).
Qed.

Lemma makeItems_limit_never_truncates_witness :
  listMdBasenames Samples.two_months (JS.lit "reports/2026-01")
  = Ok [JS.lit "2026-01-30"; JS.lit "2026-01-31"]
  ∧ ∃ its,
      makeItems Samples.two_months (JS.lit "reports/2026-01")
        (JS.lit "reports/2026-01") 62 = Ok its
      ∧ text <$> its = [JS.lit "2026-01-31"; JS.lit "2026-01-30"]
      ∧ {| text := JS.lit "2026-01-30";
           link := JS.lit "/reports/2026-01/2026-01-30" |} ∈ its.
Proof.
  split; [reflexivity|].
  destruct (makeItems_limit_never_truncates Samples.two_months
              (JS.lit "reports/2026-01") (JS.lit "reports/2026-01")
              [JS.lit "2026-01-30"; JS.lit "2026-01-31"] eq_refl)
    as (its & Hits & Htext & _ & _ & Hin & _).
  - cbn. lia.
  - exists its. split; [done|]. split; [done|].
    apply (Hin (JS.lit "2026-01-30")). by left.
Defined.

(** C8: [index.md] never becomes a sidebar item.  The basenames
    [listMdBasenames] returns do not include [index], and no item of
    [makeItems] has it as its text; and of what the directory holds, the
    basenames are exactly the names [n] other than [index] with an entry
    [n.md], so every item stands for a [.md] entry of the directory with
    the ending stripped, links to it below the prefix, and that entry is
    never [index.md]. *)
Theorem index_md_never_listed e prefix d limit names its :
  listMdBasenames e d = Ok names →
  makeItems e prefix d limit = Ok its →
  (JS.lit "index" ∉ names)
  ∧ Forall (fun it => text it ≠ JS.lit "index") its
  ∧ ∀ fs,
      readdirSync e (join_cwd_docs e d) = Ok fs →
      (∀ n, n ∈ names ↔ n ≠ JS.lit "index" ∧ n ++ JS.lit ".md" ∈ fs)
      ∧ (∀ f, f ∈ fs → JS.endsWith f (JS.lit ".md") = true →
              f ≠ JS.lit "index.md" → JS.replace_md_end f ∈ names)
      ∧ Forall (fun it =>
          text it ++ JS.lit ".md" ∈ fs
          ∧ text it ++ JS.lit ".md" ≠ JS.lit "index.md"
          ∧ JS.replace_md_end (text it ++ JS.lit ".md") = text it
          ∧ link it = JS.lit "/" ++ prefix ++ JS.lit "/" ++ text it) its.
Proof.
  intros Hnames Hits.
  assert (JS.lit "index" ∉ names) as Hnot.
  { revert Hnames. unfold listMdBasenames.
    destruct (existsSync e (join_cwd_docs e d)); cbn [negb].
    - destruct (readdirSync e (join_cwd_docs e d)) as [fs|]; cbn [Node.bind];
        [|done].
      intros [= <-]. rewrite list_elem_of_filter. by intros [? _].
    - intros [= <-]. apply not_elem_of_nil. }
  assert (∀ it, it ∈ its → text it ∈ names) as Hin.
  { intros it Hit. apply elem_of_sort, elem_of_reverse.
    apply (elem_of_slice0 _ limit).
    rewrite <-(makeItems_text e prefix d limit names its) by done.
    apply list_elem_of_fmap. by exists it. }
  split; [done|]. split.
  { apply Forall_forall. intros it Hit Heq. apply Hnot. rewrite <-Heq. by apply Hin. }
  intros fs Hfs.
  assert (∀ n, n ∈ names ↔ n ≠ JS.lit "index" ∧ n ++ JS.lit ".md" ∈ fs) as Hiff.
  { intros n. by apply (elem_of_listMdBasenames e d fs names n). }
  split; [done|]. split.
  { intros f Hf [p ->]%endsWith_spec Hidx. rewrite replace_md_end_app.
    apply Hiff. split; [|done]. by intros ->. }
  apply Forall_forall. intros it Hit.
  destruct (proj1 (Hiff _) (Hin it Hit)) as [Hidx Hfile].
  split; [done|]. split.
  { intros Heq. apply Hidx.
    change (JS.lit "index.md") with (JS.lit "index" ++ JS.lit ".md") in Heq.
    by apply app_inv_tail in Heq. }
  split; [apply replace_md_end_app|].
  rewrite (makeItems_Ok _ _ _ _ names) in Hits by done. injection Hits as <-.
  by apply list_elem_of_fmap in Hit as (n & -> & _).
Qed.

Lemma index_md_never_listed_witness :
  readdirSync Samples.two_months
    (join_cwd_docs Samples.two_months (JS.lit "reports/2026-01"))
  = Ok [JS.lit "2026-01-30.md"; JS.lit "index.md"; JS.lit "2026-01-31.md";
        JS.lit "notes.txt"]
  ∧ (JS.lit "index" ∉ [JS.lit "2026-01-30"; JS.lit "2026-01-31"])
  ∧ Forall (fun it =>
      text it ≠ JS.lit "index"
      ∧ text it ++ JS.lit ".md"
        ∈ [JS.lit "2026-01-30.md"; JS.lit "index.md"; JS.lit "2026-01-31.md";
           JS.lit "notes.txt"]
      ∧ text it ++ JS.lit ".md" ≠ JS.lit "index.md")
      [ {| text := JS.lit "2026-01-31";
           link := JS.lit "/reports/2026-01/2026-01-31" |};
        {| text := JS.lit "2026-01-30";
           link := JS.lit "/reports/2026-01/2026-01-30" |} ].
Proof.
  split; [reflexivity|].
  destruct (index_md_never_listed Samples.two_months (JS.lit "reports/2026-01")
              (JS.lit "reports/2026-01") 62 _ _ eq_refl eq_refl)
    as (Hnot & Htexts & Hfs).
  split; [exact Hnot|].
  destruct (Hfs _ eq_refl) as (_ & _ & Hitems).
  apply Forall_forall. intros it Hit.
  rewrite Forall_forall in Htexts, Hitems.
  destruct (Hitems it Hit) as (? & ? & _). split; [by apply Htexts|]. by split.
Defined.

(** C9, as the claim states it, fails: where [docs/reports] is a regular
    file no directory exists at the path, [existsSync] answers true,
    [readdirSync] raises, and the build fails. *)
Lemma listDirNames_raises_on_a_file :
  (∀ es, stat Samples.reports_is_a_file
           (join_cwd_docs Samples.reports_is_a_file (JS.lit "reports"))
         ≠ Ok (Dir es))
  ∧ listDirNames Samples.reports_is_a_file (JS.lit "reports") = Throw ENOTDIR
  ∧ listMdBasenames Samples.reports_is_a_file (JS.lit "reports") = Throw ENOTDIR
  ∧ makeMonthGroups Samples.reports_is_a_file 36 = Throw ENOTDIR
  ∧ sidebar Samples.reports_is_a_file = Throw ENOTDIR.
Proof. by repeat split. Qed.

(** C9, amended: for every path at which nothing exists, [listDirNames]
    and [listMdBasenames] return the empty list; with nothing at
    [docs/reports], [makeMonthGroups] returns no group and the sidebar is
    the empty "Digests" section. *)
Theorem missing_path_yields_empty e d :
  existsSync e (join_cwd_docs e d) = false →
  listDirNames e d = Ok []
  ∧ listMdBasenames e d = Ok []
  ∧ (d = JS.lit "reports" →
     (∀ limit, makeMonthGroups e limit = Ok [])
     ∧ sidebar e
       = Ok [ {| section_text := JS.lit "Digests"; section_items := [] |} ]).
Proof.
  intros Hex. split; [by apply listDirNames_absent|].
  split; [by apply listMdBasenames_absent|].
  intros ->. split; [intros limit; by apply makeMonthGroups_absent|].
  unfold sidebar. by rewrite makeMonthGroups_absent.
Qed.

Lemma missing_path_yields_empty_witness :
  existsSync Samples.no_reports
    (join_cwd_docs Samples.no_reports (JS.lit "reports")) = false
  ∧ listDirNames Samples.no_reports (JS.lit "reports") = Ok []
  ∧ listMdBasenames Samples.no_reports (JS.lit "reports") = Ok []
  ∧ makeMonthGroups Samples.no_reports 36 = Ok []
  ∧ sidebar Samples.no_reports
    = Ok [ {| section_text := JS.lit "Digests"; section_items := [] |} ].
Proof.
  split; [reflexivity|].
  destruct (missing_path_yields_empty Samples.no_reports (JS.lit "reports")
              eq_refl) as (H1 & H2 & H3).
  destruct (H3 eq_refl) as [H4 H5].
  by repeat split.
Defined.

(** C10: the sidebar of the exported configuration calls
    [makeMonthGroups(36)]: it shows the 36 lexically greatest month
    directories and no others; every directory left out is lexically below
    every directory shown, and with more than 36 directories exactly 36
    are shown. *)
Theorem sidebar_shows_36_greatest e es :
  wf_env e = true →
  stat e (join_cwd_docs e (JS.lit "reports")) = Ok (Dir es) →
  ∃ groups,
    sidebar e
    = Ok [ {| section_text := JS.lit "Digests"; section_items := groups |} ]
    ∧ group_text <$> groups
      = take 36 (reverse (JS.sort
          (name <$> filter (fun d => isDirectory d = true) (dirent_of <$> es))))
    ∧ length groups
      = Nat.min 36 (length (filter (fun d => isDirectory d = true)
                              (dirent_of <$> es)))
    ∧ (∀ m shown,
         (∃ es_m, (m, Dir es_m) ∈ es) →
         m ∉ group_text <$> groups →
         shown ∈ group_text <$> groups →
         JS.lt m shown = true)
    ∧ ((36 < length (filter (fun d => isDirectory d = true) (dirent_of <$> es)))%nat
       → length groups = 36%nat).
Proof.
  intros Hwf Hst.
  destruct (makeMonthGroups_Dir e 36 es Hwf Hst) as (groups & Hgs & Htexts & _).
  exists groups. unfold sidebar. rewrite Hgs. cbn [Node.bind].
  split; [done|].
  assert (length groups
      = Nat.min 36 (length (filter (fun d => isDirectory d = true)
                              (dirent_of <$> es)))) as Hlen.
  { rewrite <-(length_fmap group_text), Htexts, length_slice0 by lia.
    by rewrite length_reverse, length_sort, length_fmap. }
  split; [by rewrite Htexts, slice0_nonneg by lia|].
  split; [done|]. split; [|lia].
  intros m shown Hm Hnot Hshown. rewrite Htexts in Hnot, Hshown.
  eapply slice0_keeps_greatest; [|exact Hshown| |exact Hnot].
  - apply dir_names_NoDup.
    assert (wf_node (Dir es) = true) as Hes.
    { apply stat_Dir in Hst. by eapply resolve_wf. }
    by apply wf_node_Dir in Hes as [_ ?].
  - by apply elem_of_dir_names.
Qed.

Lemma sidebar_shows_36_greatest_witness :
  wf_env Samples.forty_months = true
  ∧ listDirNames Samples.forty_months (JS.lit "reports")
    = Ok ((fun n => [N.of_nat n]) <$> seq 48 40)
  ∧ ∃ groups,
      sidebar Samples.forty_months
      = Ok [ {| section_text := JS.lit "Digests"; section_items := groups |} ]
      ∧ group_text <$> groups
        = (fun n => [N.of_nat n]) <$> reverse (seq 52 36)
      ∧ length groups = 36%nat.
Proof.
  split; [by vm_compute|]. split; [by vm_compute|].
  destruct (sidebar_shows_36_greatest Samples.forty_months _
              eq_refl eq_refl) as (groups & Hside & Htexts & Hlen & _).
  exists groups. split; [done|]. split; [|done].
  rewrite Htexts. by vm_compute.
Defined.

End sidebar_claims.

(** * Further properties of the sidebar generator *)

Section listing.

(** The [.md] ending is the only thing the replacement removes, so two
    file names with that ending and the same basename are the same name. *)
Lemma replace_md_end_inj f1 f2 :
  JS.endsWith f1 (JS.lit ".md") = true →
  JS.endsWith f2 (JS.lit ".md") = true →
  JS.replace_md_end f1 = JS.replace_md_end f2 → f1 = f2.
Proof.
  intros [p1 ->]%endsWith_spec [p2 ->]%endsWith_spec.
  rewrite !replace_md_end_app. by intros ->.
Qed.

Lemma md_basenames_NoDup (fs : list JS.jsstring) :
  NoDup fs →
  NoDup (filter (fun name => name ≠ JS.lit "index")
           (JS.replace_md_end <$>
              filter (fun f => JS.endsWith f (JS.lit ".md") = true) fs)).
Proof.
  intros Hnd. apply NoDup_filter, NoDup_fmap_2_strong; [|by apply NoDup_filter].
  intros f1 f2 [H1 _]%list_elem_of_filter [H2 _]%list_elem_of_filter.
  by apply replace_md_end_inj.
Qed.

(** X1: a path that holds something other than a directory makes
    [listDirNames], [listMdBasenames] and [makeItems] raise ENOTDIR:
    [existsSync] lets it pass and [readdirSync] fails.  At [docs/reports]
    it makes [makeMonthGroups] raise for every limit, zero and negative
    ones too, since the listing is read before the limit is applied, and
    with it the sidebar. *)
Theorem non_directory_raises_ENOTDIR e d :
  stat e (join_cwd_docs e d) = Ok File →
  listDirNames e d = Throw ENOTDIR
  ∧ listMdBasenames e d = Throw ENOTDIR
  ∧ (∀ prefix limit, makeItems e prefix d limit = Throw ENOTDIR)
  ∧ (d = JS.lit "reports" →
     (∀ limit, makeMonthGroups e limit = Throw ENOTDIR)
     ∧ sidebar e = Throw ENOTDIR).
Proof.
  intros Hst.
  pose proof (listDirNames_File _ _ Hst) as Hdirs.
  pose proof (listMdBasenames_File _ _ Hst) as Hmd.
  split; [done|]. split; [done|].
  split; [intros prefix limit; by apply makeItems_Throw|].
  intros ->.
  assert (∀ limit, makeMonthGroups e limit = Throw ENOTDIR) as Hgroups.
  { intros limit. unfold makeMonthGroups. by rewrite Hdirs. }
  split; [done|]. unfold sidebar. by rewrite Hgroups.
Qed.

Lemma non_directory_raises_ENOTDIR_witness :
  stat Samples.reports_is_a_file
    (join_cwd_docs Samples.reports_is_a_file (JS.lit "reports")) = Ok File
  ∧ makeMonthGroups Samples.reports_is_a_file 0 = Throw ENOTDIR
  ∧ makeMonthGroups Samples.reports_is_a_file (-3) = Throw ENOTDIR
  ∧ sidebar Samples.reports_is_a_file = Throw ENOTDIR.
Proof.
  split; [reflexivity|].
  destruct (non_directory_raises_ENOTDIR Samples.reports_is_a_file
              (JS.lit "reports") eq_refl) as (_ & _ & _ & Hreports).
  destruct (Hreports eq_refl) as [Hgroups Hside].
  split; [apply Hgroups|]. split; [apply Hgroups | exact Hside].
Defined.

(** X2: of a directory, [listMdBasenames] returns exactly the names [n],
    other than [index], for which the directory has an entry [n.md]: an
    entry without that ending gives nothing, only the last [.md] of a name
    is removed, and the kind of the entry is not looked at.  Distinct
    entry names give distinct basenames. *)
Theorem listMdBasenames_characterised e d es :
  stat e (join_cwd_docs e d) = Ok (Dir es) →
  ∃ names,
    listMdBasenames e d = Ok names
    ∧ (∀ n, n ∈ names ↔ n ≠ JS.lit "index" ∧ n ++ JS.lit ".md" ∈ es.*1)
    ∧ (length names ≤ length es)%nat
    ∧ (NoDup (es.*1) → NoDup names).
Proof.
  intros Hst. eexists. split; [by apply listMdBasenames_Dir|].
  assert (readdirSync e (join_cwd_docs e d) = Ok (es.*1)) as Hfs.
  { unfold readdirSync. by rewrite Hst. }
  assert (∀ n,
    n ∈ filter (fun name => name ≠ JS.lit "index")
          (JS.replace_md_end <$>
             filter (fun f => JS.endsWith f (JS.lit ".md") = true) (es.*1))
    ↔ n ≠ JS.lit "index" ∧ n ++ JS.lit ".md" ∈ es.*1) as Hiff.
  { intros n. apply (elem_of_listMdBasenames e d); [done|].
    by apply listMdBasenames_Dir. }
  split; [done|]. split.
  - etrans; [apply length_filter|]. rewrite length_fmap.
    etrans; [apply length_filter|]. by rewrite length_fmap.
  - apply md_basenames_NoDup.
Qed.

Lemma listMdBasenames_characterised_witness :
  ∃ names,
    listMdBasenames Samples.md_corner_cases (JS.lit "notes") = Ok names
    ∧ names = [JS.lit "a.md"; JS.lit "folder"; []]
    ∧ (JS.lit "a.md" ∈ names ↔
       JS.lit "a.md" ≠ JS.lit "index"
       ∧ JS.lit "a.md" ++ JS.lit ".md"
         ∈ [JS.lit "a.md.md"; JS.lit "index.md"; JS.lit "folder.md";
            JS.lit "b.txt"; JS.lit ".md"; JS.lit "md"]).
Proof.
  destruct (listMdBasenames_characterised Samples.md_corner_cases
              (JS.lit "notes") _ eq_refl) as (names & Hnames & Hiff & _).
  exists names. split; [done|].
  assert (names = [JS.lit "a.md"; JS.lit "folder"; []]) as Heq.
  { vm_compute in Hnames. by injection Hnames as <-. }
  split; [done|]. exact (Hiff (JS.lit "a.md")).
Defined.

End listing.

Section sidebar_structure.

Lemma stat_wf_Dir e p es :
  wf_env e = true → stat e p = Ok (Dir es) →
  Forall (fun nc => wf_name nc.1 = true ∧ wf_node nc.2 = true) es ∧ NoDup (es.*1).
Proof.
  intros Hwf Hst%stat_Dir. apply wf_node_Dir. by eapply resolve_wf.
Qed.

Lemma endsWith_md_not_slash s :
  JS.endsWith (s ++ JS.lit ".md") (JS.lit "/") = false.
Proof.
  destruct (JS.endsWith _ _) eqn:H; [|done].
  apply endsWith_spec in H as [p Hp].
  change (JS.lit ".md") with ([46; 109] ++ [100])%N in Hp.
  rewrite app_assoc in Hp. by apply app_inj_tail in Hp as [_ ?].
Qed.

(** The path of a file in a month directory below [reports]. *)
Lemma split_slash_month_file m f :
  47%N ∉ m → 47%N ∉ f →
  JS.split_slash (JS.lit "reports" ++ JS.lit "/" ++ m ++ JS.lit "/" ++ f)
  = [JS.lit "reports"; m; f].
Proof.
  intros Hm Hf. unfold JS.split_slash.
  change (JS.lit "/" ++ m ++ JS.lit "/" ++ f) with (47%N :: m ++ 47%N :: f).
  rewrite split_slash_aux_segment
    by (apply (bool_decide_unpack _); by vm_compute).
  rewrite split_slash_aux_segment by done.
  by rewrite split_slash_aux_last.
Qed.

(** An entry of a month directory is found again under its path. *)
Lemma existsSync_month_entry e es m es_m f :
  wf_env e = true →
  stat e (join_cwd_docs e (JS.lit "reports")) = Ok (Dir es) →
  (m, Dir es_m) ∈ es →
  f ++ JS.lit ".md" ∈ es_m.*1 →
  existsSync e (join_cwd_docs e
    (JS.lit "reports" ++ JS.lit "/" ++ m ++ JS.lit "/" ++ f ++ JS.lit ".md"))
  = true.
Proof.
  intros Hwf Hst Hin Hf.
  destruct (stat_wf_Dir _ _ _ Hwf Hst) as [Hall Hnd].
  rewrite Forall_forall in Hall. destruct (Hall _ Hin) as [Hm _]. cbn in Hm.
  pose proof (stat_month e es m es_m Hwf Hst Hin) as Hstm.
  destruct (stat_wf_Dir _ _ _ Hwf Hstm) as [Hall_m Hnd_m].
  rewrite Forall_forall in Hall_m.
  apply list_elem_of_fmap in Hf as ([f' c] & Hf' & Hfc). cbn in Hf'. subst f'.
  destruct (Hall_m _ Hfc) as [Hfwf _]. cbn in Hfwf.
  apply wf_name_spec in Hm as (_ & _ & _ & Hm).
  pose proof Hfwf as (_ & _ & _ & Hfs)%wf_name_spec.
  apply stat_Dir in Hstm. cbn [segments join_cwd_docs] in Hstm.
  rewrite split_slash_reports in Hstm by done.
  unfold existsSync, stat. cbn [segments trailing join_cwd_docs].
  rewrite split_slash_month_file by done.
  replace (cwd e ++ [JS.lit "docs"] ++ [JS.lit "reports"; m; f ++ JS.lit ".md"])
    with ((cwd e ++ [JS.lit "docs"] ++ [JS.lit "reports"; m]) ++ [f ++ JS.lit ".md"])
    by (by rewrite <-!app_assoc).
  rewrite normalize_snoc by done.
  rewrite resolve_app, Hstm. cbn [Node.bind resolve].
  rewrite (child_NoDup _ es_m c) by done.
  replace (JS.lit "reports" ++ JS.lit "/" ++ m ++ JS.lit "/" ++ f ++ JS.lit ".md")
    with ((JS.lit "reports" ++ JS.lit "/" ++ m ++ JS.lit "/" ++ f) ++ JS.lit ".md")
    by (by rewrite <-!app_assoc).
  rewrite endsWith_md_not_slash. by destruct c.
Qed.

Lemma StronglySorted_strict (l : list JS.jsstring) :
  StronglySorted (flip JS.le) l → NoDup l →
  StronglySorted (fun a b => JS.lt b a = true) l.
Proof.
  induction 1 as [|x l Hl IH Hx]; intros Hnd; constructor.
  - apply IH. by apply NoDup_cons in Hnd as [_ ?].
  - apply NoDup_cons in Hnd as [Hx' _].
    rewrite Forall_forall in Hx |- *. intros y Hy.
    apply le_neq_lt; [by apply Hx | by intros ->].
Qed.

Lemma slice0_NoDup {A} (l : list A) e : NoDup l → NoDup (JS.slice0 l e).
Proof.
  intros Hnd. destruct (slice0_take l e) as [n ->].
  eapply sublist_NoDup; [done | apply sublist_take].
Qed.

(** X3: every entry of the sidebar stands for something on disk: each
    group is collapsed and named after a directory of [docs/reports], and
    each of its items is linked as [/reports/<month>/<text>], is not the
    index page, and has its file [<text>.md] in that directory. *)
Theorem sidebar_entries_exist e es :
  wf_env e = true →
  stat e (join_cwd_docs e (JS.lit "reports")) = Ok (Dir es) →
  ∃ groups,
    sidebar e
    = Ok [ {| section_text := JS.lit "Digests"; section_items := groups |} ]
    ∧ Forall (fun g =>
        collapsed g = true
        ∧ ∃ es_m,
            (group_text g, Dir es_m) ∈ es
            ∧ Forall (fun it =>
                link it = JS.lit "/reports/" ++ group_text g ++ JS.lit "/" ++ text it
                ∧ text it ≠ JS.lit "index"
                ∧ text it ++ JS.lit ".md" ∈ es_m.*1
                ∧ existsSync e (join_cwd_docs e
                    (JS.lit "reports" ++ JS.lit "/" ++ group_text g
                     ++ JS.lit "/" ++ text it ++ JS.lit ".md")) = true)
                (items g)) groups.
Proof.
  intros Hwf Hst.
  destruct (makeMonthGroups_Dir e 36 es Hwf Hst) as (groups & Hgs & _ & Hall).
  exists groups. unfold sidebar. rewrite Hgs. cbn [Node.bind]. split; [done|].
  eapply Forall_impl; [exact Hall|]. cbv beta.
  intros g (Hcol & es_m & Hin & Hstm & Hits). split; [done|].
  exists es_m. split; [done|].
  pose proof (listMdBasenames_Dir _ _ _ Hstm) as Hnames.
  rewrite (makeItems_Ok _ _ _ _ _ Hnames) in Hits. injection Hits as <-.
  apply Forall_fmap, Forall_forall. intros n Hn.
  unfold compose. cbn [text link].
  apply elem_of_slice0 in Hn. rewrite elem_of_reverse, elem_of_sort in Hn.
  assert (readdirSync e (join_cwd_docs e
            (JS.lit "reports" ++ JS.lit "/" ++ group_text g)) = Ok (es_m.*1))
    as Hfs by (unfold readdirSync; by rewrite Hstm).
  apply (elem_of_listMdBasenames _ _ _ _ n Hfs Hnames) in Hn as [Hidx Hfile].
  split; [done|]. split; [done|]. split; [done|].
  by apply (existsSync_month_entry e es (group_text g) es_m n).
Qed.

Lemma sidebar_entries_exist_witness :
  wf_env Samples.two_months = true
  ∧ ∃ groups,
      sidebar Samples.two_months
      = Ok [ {| section_text := JS.lit "Digests"; section_items := groups |} ]
      ∧ (fun g => link <$> items g) <$> groups
        = [[JS.lit "/reports/2026-02/2026-02-01"];
           [JS.lit "/reports/2026-01/2026-01-31";
            JS.lit "/reports/2026-01/2026-01-30"]]
      ∧ Forall (fun g =>
          Forall (fun it =>
            existsSync Samples.two_months (join_cwd_docs Samples.two_months
              (JS.lit "reports" ++ JS.lit "/" ++ group_text g
               ++ JS.lit "/" ++ text it ++ JS.lit ".md")) = true)
            (items g)) groups.
Proof.
  split; [reflexivity|].
  destruct (sidebar_entries_exist Samples.two_months _ eq_refl eq_refl)
    as (groups & Hside & Hall).
  exists groups. split; [done|]. split.
  - vm_compute in Hside. by injection Hside as <-.
  - eapply Forall_impl; [exact Hall|]. cbv beta. intros g (_ & es_m & _ & Hits).
    eapply Forall_impl; [exact Hits|]. cbv beta. by intros it (_ & _ & _ & ?).
Defined.

End sidebar_structure.

Section sidebar_content.

(** Whenever [makeItems] returns, [listMdBasenames] returned, and the
    items are made of a slice of the descending arrangement of its names. *)
Lemma makeItems_Ok_inv e prefix d limit its :
  makeItems e prefix d limit = Ok its →
  ∃ names,
    listMdBasenames e d = Ok names
    ∧ its = (fun name => {| text := name;
               link := JS.lit "/" ++ prefix ++ JS.lit "/" ++ name |})
            <$> JS.slice0 (reverse (JS.sort names)) limit.
Proof.
  unfold makeItems.
  destruct (listMdBasenames e d) as [names|]; cbn [Node.bind]; [|done].
  intros [= <-]. by exists names.
Qed.

(** Whenever [makeMonthGroups] returns, [listDirNames] returned, the
    groups are named by a slice of the descending arrangement of its names,
    and each group holds what [makeItems] made of the month's path. *)
Lemma makeMonthGroups_Ok_inv e limit groups :
  makeMonthGroups e limit = Ok groups →
  ∃ ms,
    listDirNames e (JS.lit "reports") = Ok ms
    ∧ group_text <$> groups = JS.slice0 (reverse (JS.sort ms)) limit
    ∧ Forall (fun g =>
        collapsed g = true
        ∧ makeItems e (JS.lit "reports/" ++ group_text g)
            (JS.lit "reports" ++ JS.lit "/" ++ group_text g) 62
          = Ok (items g)) groups.
Proof.
  unfold makeMonthGroups.
  destruct (listDirNames e (JS.lit "reports")) as [ms|]; cbn [Node.bind]; [|done].
  intros Hmap%map_throwing_Ok. exists ms. split; [done|].
  induction Hmap as [|m g months groups Hg _ [IHt IHg]]; [done|].
  destruct (makeItems e (JS.lit "reports/" ++ m) _ 62) as [its|] eqn:Hits;
    cbn [Node.bind] in Hg; [|done].
  injection Hg as <-. cbn [fmap list_fmap group_text].
  split; [by rewrite IHt|]. by constructor.
Qed.

(** X4: when no limit cuts, the sidebar shows all that the listing
    functions report: if [listDirNames] reports at most 36 names under
    [docs/reports] and [makeMonthGroups(36)] returns, the groups are, up
    to order, exactly the reported names; every group is collapsed, shows
    only basenames that [listMdBasenames] reports for the month, and, when
    these are at most 62, has exactly one item for each, linked as
    [/reports/<month>/<name>]. *)
Theorem sidebar_complete_when_nothing_is_cut e ms groups :
  listDirNames e (JS.lit "reports") = Ok ms →
  (length ms ≤ 36)%nat →
  makeMonthGroups e 36 = Ok groups →
  sidebar e
  = Ok [ {| section_text := JS.lit "Digests"; section_items := groups |} ]
  ∧ group_text <$> groups ≡ₚ ms
  ∧ Forall (fun g =>
      collapsed g = true
      ∧ ∃ names,
          listMdBasenames e (JS.lit "reports" ++ JS.lit "/" ++ group_text g)
          = Ok names
          ∧ text <$> items g ⊆+ names
          ∧ ((length names ≤ 62)%nat →
             text <$> items g ≡ₚ names
             ∧ ∀ n, n ∈ names →
                 {| text := n;
                    link := JS.lit "/reports/" ++ group_text g ++ JS.lit "/" ++ n |}
                 ∈ items g)) groups.
Proof.
  intros Hms Hfew Hgs.
  split; [unfold sidebar; by rewrite Hgs|].
  destruct (makeMonthGroups_Ok_inv _ _ _ Hgs) as (ms' & Hms' & Htexts & Hall).
  assert (ms' = ms) as -> by congruence.
  split; [rewrite Htexts; apply descending_slice_all; lia|].
  eapply Forall_impl; [exact Hall|]. cbv beta. intros g [Hcol Hits].
  split; [done|].
  apply makeItems_Ok_inv in Hits as (names & Hnames & Hits).
  exists names. split; [done|].
  assert (text <$> items g = JS.slice0 (reverse (JS.sort names)) 62) as Htext.
  { rewrite Hits, <-list_fmap_compose. apply list_fmap_id. }
  split; [rewrite Htext; apply descending_slice_submseteq|].
  intros Hlen. split; [rewrite Htext; apply descending_slice_all; lia|].
  intros n Hn. rewrite Hits. apply list_elem_of_fmap. exists n. split; [done|].
  rewrite slice0_all by (rewrite length_reverse, length_sort; lia).
  by rewrite elem_of_reverse, elem_of_sort.
Qed.

Lemma sidebar_complete_when_nothing_is_cut_witness :
  listDirNames Samples.two_months (JS.lit "reports")
  = Ok [JS.lit "2026-01"; JS.lit "2026-02"]
  ∧ ∃ groups,
      sidebar Samples.two_months
      = Ok [ {| section_text := JS.lit "Digests"; section_items := groups |} ]
      ∧ group_text <$> groups ≡ₚ [JS.lit "2026-01"; JS.lit "2026-02"]
      ∧ (fun g => text <$> items g) <$> groups
        = [[JS.lit "2026-02-01"]; [JS.lit "2026-01-31"; JS.lit "2026-01-30"]].
Proof.
  split; [reflexivity|].
  destruct (makeMonthGroups Samples.two_months 36) as [groups|] eqn:Hgs;
    [|by vm_compute in Hgs].
  destruct (sidebar_complete_when_nothing_is_cut Samples.two_months
              [JS.lit "2026-01"; JS.lit "2026-02"] groups eq_refl)
    as (Hside & Hperm & _); [cbn; lia | exact Hgs |].
  exists groups. split; [done|]. split; [done|].
  vm_compute in Hgs. by injection Hgs as <-.
Defined.

(** X5: the sidebar shows nothing twice: the group texts are pairwise
    distinct and strictly descending, and within every group so are the
    item texts, and the links are pairwise distinct. *)
Theorem sidebar_has_no_duplicates e limit es :
  wf_env e = true →
  stat e (join_cwd_docs e (JS.lit "reports")) = Ok (Dir es) →
  ∃ groups,
    makeMonthGroups e limit = Ok groups
    ∧ NoDup (group_text <$> groups)
    ∧ StronglySorted (fun a b => JS.lt b a = true) (group_text <$> groups)
    ∧ Forall (fun g =>
        NoDup (text <$> items g)
        ∧ NoDup (link <$> items g)
        ∧ StronglySorted (fun a b => JS.lt b a = true) (text <$> items g))
        groups.
Proof.
  intros Hwf Hst.
  destruct (makeMonthGroups_Dir e limit es Hwf Hst) as (groups & Hgs & Htexts & Hall).
  destruct (stat_wf_Dir _ _ _ Hwf Hst) as [_ Hnd].
  exists groups. split; [done|].
  assert (NoDup (group_text <$> groups)) as Hnd_g.
  { rewrite Htexts. apply slice0_NoDup.
    rewrite reverse_Permutation, sort_Permutation. by apply dir_names_NoDup. }
  split; [done|]. split.
  { apply StronglySorted_strict; [|done]. rewrite Htexts. apply slice0_descending. }
  eapply Forall_impl; [exact Hall|]. cbv beta.
  intros g (_ & es_m & _ & Hstm & Hits).
  destruct (stat_wf_Dir _ _ _ Hwf Hstm) as [_ Hnd_m].
  pose proof (listMdBasenames_Dir _ _ _ Hstm) as Hnames.
  pose proof (md_basenames_NoDup _ Hnd_m) as Hnd_n.
  set (names := filter _ (JS.replace_md_end <$> _)) in Hnames, Hnd_n.
  assert (NoDup (JS.slice0 (reverse (JS.sort names)) 62)) as Hnd_s.
  { apply slice0_NoDup. by rewrite reverse_Permutation, sort_Permutation. }
  pose proof (makeItems_text _ _ _ _ _ _ Hnames Hits) as Htext.
  rewrite (makeItems_Ok _ _ _ _ _ Hnames) in Hits.
  assert (items g
          = (fun name => {| text := name;
               link := JS.lit "/" ++ (JS.lit "reports/" ++ group_text g)
                       ++ JS.lit "/" ++ name |})
            <$> JS.slice0 (reverse (JS.sort names)) 62) as Hitems
    by congruence.
  split; [by rewrite Htext|]. split.
  - rewrite Hitems, <-list_fmap_compose. apply NoDup_fmap_2_strong; [|done].
    intros n1 n2 _ _ Heq. unfold compose in Heq. cbn [link] in Heq.
    do 3 apply app_inv_head in Heq. exact Heq.
  - apply StronglySorted_strict; [|by rewrite Htext].
    rewrite Htext. apply slice0_descending.
Qed.

Lemma sidebar_has_no_duplicates_witness :
  wf_env Samples.forty_months = true
  ∧ ∃ groups,
      makeMonthGroups Samples.forty_months 36 = Ok groups
      ∧ length groups = 36%nat
      ∧ NoDup (group_text <$> groups).
Proof.
  split; [by vm_compute|].
  destruct (sidebar_has_no_duplicates Samples.forty_months 36 _ eq_refl eq_refl)
    as (groups & Hgs & Hnd & _).
  exists groups. split; [done|]. split; [|done].
  vm_compute in Hgs. by injection Hgs as <-.
Defined.

End sidebar_content.

Section limits_and_order.

Lemma slice0_negative {A} (l : list A) e :
  e < 0 → JS.slice0 l e = take (length l - Z.to_nat (- e)) l.
Proof.
  intros He. unfold JS.slice0. destruct (Z.ltb_spec e 0); [|lia].
  f_equal. lia.
Qed.

Lemma slice0_slice0 {A} (l : list A) a b :
  0 ≤ a ≤ b → JS.slice0 l a = take (Z.to_nat a) (JS.slice0 l b).
Proof.
  intros Hab. rewrite !slice0_nonneg by lia.
  rewrite take_take. f_equal. lia.
Qed.

Lemma map_throwing_take {A B} (f : A → result B) l bs n :
  map_throwing f l = Ok bs → map_throwing f (take n l) = Ok (take n bs).
Proof.
  revert bs n. induction l as [|a l IH]; intros bs n; cbn [map_throwing].
  - intros [= <-]. by rewrite !take_nil.
  - destruct (f a) as [b|] eqn:Hb; cbn [Node.bind]; [|done].
    destruct (map_throwing f l) as [bs'|] eqn:Hbs; cbn [Node.bind]; [|done].
    intros [= <-]. destruct n as [|n]; [done|].
    cbn [take map_throwing]. rewrite Hb. cbn [Node.bind].
    by rewrite (IH bs' n eq_refl).
Qed.

Lemma map_throwing_ext {A B} (f g : A → result B) l :
  (∀ a, a ∈ l → f a = g a) → map_throwing f l = map_throwing g l.
Proof.
  induction l as [|a l IH]; intros Hfg; cbn [map_throwing]; [done|].
  rewrite (Hfg a) by left. rewrite IH; [done|].
  intros a' Ha'. apply Hfg. by right.
Qed.

(** What a slice of the descending arrangement leaves out, it leaves out
    in every copy, and it lies below everything kept. *)
Lemma slice0_cut_below l e x y :
  x ∈ JS.slice0 (reverse (JS.sort l)) e →
  y ∈ l → y ∉ JS.slice0 (reverse (JS.sort l)) e →
  JS.lt y x = true.
Proof.
  intros Hx Hy Hny.
  destruct (slice0_take (reverse (JS.sort l)) e) as [n Hn].
  rewrite Hn in Hx, Hny.
  pose proof (reverse_sort_descending l) as Hs.
  rewrite <-(take_drop n (reverse (JS.sort l))) in Hs.
  assert (y ∈ drop n (reverse (JS.sort l))) as Hyd.
  { assert (y ∈ take n (reverse (JS.sort l)) ++ drop n (reverse (JS.sort l))) as Hin.
    { rewrite take_drop. by rewrite elem_of_reverse, elem_of_sort. }
    apply elem_of_app in Hin as [?|?]; done. }
  apply StronglySorted_app in Hs as (Hs & _ & _).
  apply le_neq_lt.
  - apply (Hs x y); [done..].
  - by intros ->.
Qed.

(** X6: whatever the limit, [makeItems] cuts from the lower end: every
    basename left out is lexically below every one shown.  A limit of at
    least zero shows that many items or all; a negative limit [-k] leaves
    out the [k] least. *)
Theorem makeItems_keeps_the_greatest e prefix d limit names :
  listMdBasenames e d = Ok names →
  ∃ its,
    makeItems e prefix d limit = Ok its
    ∧ (0 ≤ limit → length its = Nat.min (Z.to_nat limit) (length names))
    ∧ (limit < 0 → length its = (length names - Z.to_nat (- limit))%nat)
    ∧ ∀ n shown,
        n ∈ names → n ∉ text <$> its → shown ∈ text <$> its →
        JS.lt n shown = true.
Proof.
  intros Hnames. eexists. split; [by apply makeItems_Ok|].
  assert (text <$> ((fun name => {| text := name;
            link := JS.lit "/" ++ prefix ++ JS.lit "/" ++ name |})
          <$> JS.slice0 (reverse (JS.sort names)) limit)
          = JS.slice0 (reverse (JS.sort names)) limit) as Htext.
  { rewrite <-list_fmap_compose. apply list_fmap_id. }
  split; [|split].
  - intros Hl. by rewrite length_fmap, length_slice0, length_reverse, length_sort.
  - intros Hl. rewrite length_fmap, slice0_negative, length_take by done.
    rewrite length_reverse, length_sort. lia.
  - rewrite Htext. intros n shown Hn Hnot Hshown.
    by apply (slice0_cut_below names limit shown n).
Qed.

Lemma makeItems_keeps_the_greatest_witness :
  listMdBasenames Samples.two_months (JS.lit "reports/2026-01")
  = Ok [JS.lit "2026-01-30"; JS.lit "2026-01-31"]
  ∧ ∃ its,
      makeItems Samples.two_months (JS.lit "reports/2026-01")
        (JS.lit "reports/2026-01") (-1) = Ok its
      ∧ text <$> its = [JS.lit "2026-01-31"]
      ∧ JS.lt (JS.lit "2026-01-30") (JS.lit "2026-01-31") = true.
Proof.
  split; [reflexivity|].
  destruct (makeItems_keeps_the_greatest Samples.two_months
              (JS.lit "reports/2026-01") (JS.lit "reports/2026-01") (-1)
              [JS.lit "2026-01-30"; JS.lit "2026-01-31"] eq_refl)
    as (its & Hits & _ & _ & Hcut).
  exists its. split; [done|].
  assert (text <$> its = [JS.lit "2026-01-31"]) as Htext.
  { vm_compute in Hits. by injection Hits as <-. }
  split; [done|].
  apply Hcut; rewrite ?Htext.
  - left.
  - apply (bool_decide_unpack _). by vm_compute.
  - left.
Defined.

(** X7: a larger limit only adds older months at the end: for limits
    [0 ≤ a ≤ b], what [makeMonthGroups(a)] returns is the first [a] groups
    of what [makeMonthGroups(b)] returns; so the default of 24 gives the
    first 24 groups of the sidebar's 36. *)
Theorem makeMonthGroups_limit_prefix e a b groups :
  0 ≤ a ≤ b →
  makeMonthGroups e b = Ok groups →
  makeMonthGroups e a = Ok (take (Z.to_nat a) groups).
Proof.
  intros Hab. unfold makeMonthGroups.
  destruct (listDirNames e (JS.lit "reports")) as [ms|]; cbn [Node.bind]; [|done].
  rewrite (slice0_slice0 _ a b) by done. apply map_throwing_take.
Qed.

Lemma makeMonthGroups_limit_prefix_witness :
  ∃ groups,
    makeMonthGroups Samples.forty_months 36 = Ok groups
    ∧ length groups = 36%nat
    ∧ makeMonthGroups Samples.forty_months makeMonthGroups_limit_default
      = Ok (take 24 groups).
Proof.
  destruct (makeMonthGroups Samples.forty_months 36) as [groups|] eqn:Hgs;
    [|by vm_compute in Hgs].
  exists groups. split; [done|]. split.
  - vm_compute in Hgs. by injection Hgs as <-.
  - apply (makeMonthGroups_limit_prefix Samples.forty_months 24 36 groups);
      [lia | exact Hgs].
Defined.

(** X8: the order in which [readdirSync] reports the entries of a
    directory does not show: two directories with the same entry names, in
    whatever order, give the same items. *)
Theorem makeItems_ignores_listing_order e1 e2 prefix d1 d2 limit es1 es2 :
  stat e1 (join_cwd_docs e1 d1) = Ok (Dir es1) →
  stat e2 (join_cwd_docs e2 d2) = Ok (Dir es2) →
  es1.*1 ≡ₚ es2.*1 →
  makeItems e1 prefix d1 limit = makeItems e2 prefix d2 limit
  ∧ ∃ its, makeItems e1 prefix d1 limit = Ok its.
Proof.
  intros Hst1 Hst2 Hperm.
  rewrite (makeItems_Ok _ _ _ _ _ (listMdBasenames_Dir _ _ _ Hst1)).
  rewrite (makeItems_Ok _ _ _ _ _ (listMdBasenames_Dir _ _ _ Hst2)).
  split; [|by eexists]. do 4 f_equal.
  apply sort_unique; [apply Sorted_merge_sort; apply _|].
  rewrite sort_Permutation. by rewrite Hperm.
Qed.

Lemma makeItems_ignores_listing_order_witness :
  readdirSync Samples.two_months
    (join_cwd_docs Samples.two_months (JS.lit "reports/2026-01"))
  = Ok [JS.lit "2026-01-30.md"; JS.lit "index.md"; JS.lit "2026-01-31.md";
        JS.lit "notes.txt"]
  ∧ readdirSync Samples.january_reordered
      (join_cwd_docs Samples.january_reordered (JS.lit "reports/2026-01"))
    = Ok [JS.lit "notes.txt"; JS.lit "2026-01-31.md"; JS.lit "2026-01-30.md";
          JS.lit "index.md"]
  ∧ makeItems Samples.two_months (JS.lit "reports/2026-01")
      (JS.lit "reports/2026-01") 62
    = makeItems Samples.january_reordered (JS.lit "reports/2026-01")
        (JS.lit "reports/2026-01") 62.
Proof.
  split; [reflexivity|]. split; [reflexivity|].
  apply (makeItems_ignores_listing_order Samples.two_months
           Samples.january_reordered (JS.lit "reports/2026-01")
           (JS.lit "reports/2026-01") (JS.lit "reports/2026-01") 62
           _ _ eq_refl eq_refl).
  apply (bool_decide_unpack _). by vm_compute.
Defined.

End limits_and_order.

Section locality.

(** X9: the sidebar is read off [docs/reports] alone: two checkouts,
    wherever they lie and whatever else they hold, with the same directory
    tree at [docs/reports] get the same groups and the same sidebar. *)
Theorem sidebar_depends_on_reports_only e1 e2 es limit :
  wf_env e1 = true → wf_env e2 = true →
  stat e1 (join_cwd_docs e1 (JS.lit "reports")) = Ok (Dir es) →
  stat e2 (join_cwd_docs e2 (JS.lit "reports")) = Ok (Dir es) →
  makeMonthGroups e1 limit = makeMonthGroups e2 limit
  ∧ sidebar e1 = sidebar e2.
Proof.
  intros Hwf1 Hwf2 Hst1 Hst2.
  assert (∀ limit, makeMonthGroups e1 limit = makeMonthGroups e2 limit) as Hsame.
  { clear limit. intros limit. unfold makeMonthGroups.
    rewrite (listDirNames_Dir _ _ _ Hst1), (listDirNames_Dir _ _ _ Hst2).
    cbn [Node.bind]. apply map_throwing_ext. intros m Hm.
    apply elem_of_slice0 in Hm. rewrite elem_of_reverse, elem_of_sort in Hm.
    apply elem_of_dir_names in Hm as [es_m Hin].
    pose proof (stat_month e1 es m es_m Hwf1 Hst1 Hin) as Hm1.
    pose proof (stat_month e2 es m es_m Hwf2 Hst2 Hin) as Hm2.
    rewrite (makeItems_Ok _ _ _ _ _ (listMdBasenames_Dir _ _ _ Hm1)).
    by rewrite (makeItems_Ok _ _ _ _ _ (listMdBasenames_Dir _ _ _ Hm2)). }
  split; [done|]. unfold sidebar. by rewrite Hsame.
Qed.

Lemma sidebar_depends_on_reports_only_witness :
  cwd Samples.two_months ≠ cwd Samples.two_months_elsewhere
  ∧ listDirNames Samples.two_months_elsewhere [] = Ok [JS.lit "drafts"; JS.lit "reports"]
  ∧ sidebar Samples.two_months = sidebar Samples.two_months_elsewhere.
Proof.
  split; [done|]. split; [reflexivity|].
  by destruct (sidebar_depends_on_reports_only Samples.two_months
                 Samples.two_months_elsewhere _ 36 eq_refl eq_refl eq_refl eq_refl).
Defined.

End locality.

(** * Properties of the pipeline model *)

Section selector.
Import Pipeline.

Variable score : Candidate → Z.

Lemma elem_of_qualifying c candidates crit :
  c ∈ qualifying candidates crit
  ↔ c ∈ candidates ∧ (id c ∉ dedup_window crit) ∧ excluded crit c = false.
Proof.
  unfold qualifying. rewrite !list_elem_of_filter. naive_solver.
Qed.

Lemma select_submseteq candidates crit :
  select score candidates crit ⊆+ qualifying candidates crit.
Proof.
  unfold select. etrans.
  - apply sublist_submseteq, sublist_take.
  - by rewrite merge_sort_Permutation.
Qed.

Lemma elem_of_select c candidates crit :
  c ∈ select score candidates crit → c ∈ qualifying candidates crit.
Proof.
  intros Hc. eapply elem_of_submseteq; [exact Hc | apply select_submseteq].
Qed.

Lemma length_select candidates crit :
  length (select score candidates crit)
  = Nat.min (max_count crit) (length (qualifying candidates crit)).
Proof.
  unfold select. by rewrite length_take, merge_sort_Permutation.
Qed.

(** Step 1 of the Selector: nothing selected has an id of the dedup
    window. *)
Lemma select_dedup candidates crit :
  Forall (fun c => id c ∉ dedup_window crit) (select score candidates crit).
Proof.
  apply Forall_forall. intros c Hc%elem_of_select.
  by apply elem_of_qualifying in Hc as (_ & ? & _).
Qed.

(** When every candidate is in the dedup window, nothing is selected. *)
Lemma select_all_published candidates crit :
  Forall (fun c => id c ∈ dedup_window crit) candidates →
  select score candidates crit = [].
Proof.
  intros Hall. unfold select.
  assert (qualifying candidates crit = []) as ->; [|apply take_nil].
  unfold qualifying.
  assert (filter (fun c => id c ∉ dedup_window crit) candidates = []) as ->;
    [|done].
  induction Hall as [|c cands Hc _ IH]; [done|].
  rewrite filter_cons. by destruct (decide _).
Qed.

(** C5: with [min_count ≤ max_count], the Selector returns at most
    [max_count] candidates; at least [min_count] of them when that many
    qualify; and when fewer than [min_count] qualify, exactly the
    qualifying candidates, every one of them taken from the feed. *)
Theorem select_bounded candidates crit :
  (min_count crit ≤ max_count crit)%nat →
  (length (select score candidates crit) ≤ max_count crit)%nat
  ∧ ((min_count crit ≤ length (qualifying candidates crit))%nat →
     (min_count crit ≤ length (select score candidates crit))%nat)
  ∧ ((length (qualifying candidates crit) < min_count crit)%nat →
     select score candidates crit ≡ₚ qualifying candidates crit)
  ∧ select score candidates crit ⊆+ candidates.
Proof.
  intros Hbounds. rewrite length_select. split; [lia|]. split; [lia|]. split.
  - intros Hfew. unfold select.
    rewrite take_ge by (rewrite merge_sort_Permutation; lia).
    apply merge_sort_Permutation.
  - etrans; [apply select_submseteq|]. unfold qualifying.
    etrans; apply sublist_submseteq, sublist_filter.
Qed.

End selector.

Lemma select_bounded_witness :
  let cands := [SampleRuns.p1; SampleRuns.p2; SampleRuns.p3; SampleRuns.p2] in
  Pipeline.qualifying cands SampleRuns.one_to_two
  = [SampleRuns.p2; SampleRuns.p3; SampleRuns.p2]
  ∧ Pipeline.select Pipeline.fetched_at cands SampleRuns.one_to_two
    = [SampleRuns.p3; SampleRuns.p2]
  ∧ (length (Pipeline.select Pipeline.fetched_at cands SampleRuns.one_to_two)
     ≤ 2)%nat.
Proof.
  intros cands. split; [reflexivity|]. split; [reflexivity|].
  by destruct (select_bounded Pipeline.fetched_at cands SampleRuns.one_to_two)
    as (H & _); [cbn; lia|].
Defined.

Section renderer.
Import Pipeline.

Lemma prefix_spec needle hay :
  String.prefix needle hay = true ↔ ∃ rest, hay = String.app needle rest.
Proof.
  revert hay. induction needle as [|a needle IH]; intros hay.
  - split; [intros _; by exists hay | by destruct hay].
  - destruct hay as [|b hay]; cbn [String.prefix].
    + split; [done | by intros [? ?]].
    + split.
      * destruct (Ascii.ascii_dec a b) as [->|Hne]; [|done].
        intros [rest ->]%IH. by exists rest.
      * intros [rest Hrest].
        change (String b hay = String a (String.app needle rest)) in Hrest.
        injection Hrest as -> ->.
        destruct (Ascii.ascii_dec a a); [|done]. apply IH. by exists rest.
Qed.

(** [is_substring] decides occurrence as a substring. *)
Lemma is_substring_spec needle hay :
  is_substring needle hay = true
  ↔ ∃ before after, hay = String.app before (String.app needle after).
Proof.
  induction hay as [|b hay IH]; cbn [is_substring];
    rewrite orb_true_iff, prefix_spec.
  - split.
    + intros [[rest Hrest]|?]; [|done]. by exists EmptyString, rest.
    + intros ([|??] & after & Heq); [|done]. left. by exists after.
  - rewrite IH. split.
    + intros [[rest Hrest]|(before & after & ->)].
      * by exists EmptyString, rest.
      * by exists (String b before), after.
    + intros ([|b' before] & after & Heq).
      * left. by exists after.
      * right. exists before, after.
        change (String b hay
                = String b' (String.app before (String.app needle after))) in Heq.
        congruence.
Qed.

Lemma entry_conforms_spec e :
  entry_conforms e = true
  ↔ (6 ≤ length (summary_points e) ≤ 10)%nat
    ∧ ∃ before after,
        task_block e = String.app before (String.app (entry_post_url e) after).
Proof.
  unfold entry_conforms.
  rewrite !andb_true_iff, !Nat.leb_le, is_substring_spec. tauto.
Qed.

Lemma render_inr cap c e :
  render cap c = inr e →
  entry_conforms e = true ∧ entry_post_url e = post_url c
  ∧ summary_points e = summarize cap c ∧ task_block e = write_task_block cap c.
Proof.
  unfold render. destruct (entry_conforms _) eqn:Hok; [|done].
  by intros [= <-].
Qed.

Lemma render_inl cap c err :
  render cap c = inl err →
  err = TemplateViolation
  ∧ (¬ (6 ≤ length (summarize cap c) ≤ 10)%nat
     ∨ is_substring (post_url c) (write_task_block cap c) = false).
Proof.
  unfold render. destruct (entry_conforms _) eqn:Hok; [done|].
  intros [= <-]. split; [done|].
  unfold entry_conforms in Hok. cbn [summary_points entry_post_url task_block] in Hok.
  rewrite !andb_false_iff, !Nat.leb_gt in Hok.
  destruct Hok as [[?|?]|?]; [left; lia | left; lia | by right].
Qed.

Lemma elem_of_rendered cap (sel : list Candidate) c e :
  (c, e) ∈ omap (render_or_drop cap) sel ↔ c ∈ sel ∧ render cap c = inr e.
Proof.
  rewrite list_elem_of_omap. unfold render_or_drop. split.
  - intros (c' & Hc' & Hr). destruct (render cap c') eqn:?; naive_solver.
  - intros [Hc Hr]. exists c. by rewrite Hr.
Qed.

End renderer.

Section publisher.
Import Pipeline.

Lemma Repo_eq s s' :
  files s = files s' → temp_files s = temp_files s' →
  publication_record s = publication_record s' → s = s'.
Proof. destruct s, s'; cbn; by intros -> -> ->. Qed.

Lemma rename_written tmp path content s :
  rename_temp tmp path (write_temp tmp content s)
  = {| files := <[path := content]> (files s);
       temp_files := delete tmp (temp_files s);
       publication_record := publication_record s |}.
Proof.
  unfold rename_temp, write_temp. cbn.
  rewrite lookup_insert_eq. by rewrite delete_insert_eq.
Qed.

(** Removing the temporary file of a failed write leaves the repository
    as it was, when no file of that name lay there before. *)
Lemma remove_written tmp content s :
  temp_files s !! tmp = None → remove_temp tmp (write_temp tmp content s) = s.
Proof.
  intros Hfresh. apply Repo_eq; cbn; [done| |done].
  by apply delete_insert_id.
Qed.

Lemma restore_file_written path content s :
  (match files s !! path with
   | Some old => <[path := old]> (<[path := content]> (files s))
   | None => delete path (<[path := content]> (files s))
   end) = files s.
Proof.
  destruct (files s !! path) as [old|] eqn:Hold.
  - rewrite insert_insert_eq. by apply insert_id.
  - by apply delete_insert_id.
Qed.

Lemma unappend_appended (record : gset string) (ids : list string) :
  (record ∪ list_to_set ids)
    ∖ list_to_set (filter (fun i => i ∉ record) ids) = record.
Proof.
  apply set_eq. intros i.
  rewrite elem_of_difference, elem_of_union, !elem_of_list_to_set,
    list_elem_of_filter.
  destruct (decide (i ∈ record)); naive_solver.
Qed.

(** The name chosen for the temporary file is not in use. *)
Lemma fresh_temp_unused s : temp_files s !! fresh (dom (temp_files s)) = None.
Proof. apply not_elem_of_dom, is_fresh. Qed.

(** The default mode refuses a date key whose file exists, and touches
    nothing. *)
Lemma publish_refuses cap flt d ids s :
  is_Some (files s !! path_of cap (date_key d)) →
  publish cap false flt d ids s = (PublishFailed AlreadyPublished, s).
Proof.
  intros Hsome. unfold publish. by rewrite bool_decide_eq_true_2.
Qed.

(** A publish that fails leaves the repository as it found it. *)
Lemma publish_failed_unchanged cap ow flt d ids s err s' :
  publish cap ow flt d ids s = (PublishFailed err, s') →
  s' = s ∧ (err = AlreadyPublished ∨ err = PublishIOError).
Proof.
  pose proof (fresh_temp_unused s) as Hfresh. unfold publish.
  destruct (bool_decide _ && negb ow).
  { intros [= <- <-]. auto. }
  destruct flt as [|partial| |k]; [done| | |]; intros [= <- <-]; (split; [|auto]).
  - by apply remove_written.
  - by apply remove_written.
  - rewrite rename_written. apply Repo_eq; cbn.
    + apply restore_file_written.
    + by apply delete_id.
    + apply unappend_appended.
Qed.

(** A publish that succeeds did both: the file holds the rendered digest
    and the ids are in the record. *)
Lemma publish_succeeded cap ow flt d ids s s' :
  publish cap ow flt d ids s = (PublishSucceeded, s') →
  files s' = <[path_of cap (date_key d) :=
                 render_digest cap (entries d) (date_key d)]> (files s)
  ∧ temp_files s' = temp_files s
  ∧ publication_record s' = publication_record s ∪ list_to_set ids
  ∧ (ow = true ∨ files s !! path_of cap (date_key d) = None).
Proof.
  unfold publish.
  destruct (bool_decide _ && negb ow) eqn:Hguard; [done|].
  destruct flt; [|done..]. intros [= <-]. rewrite rename_written. cbn.
  split; [done|]. split; [apply delete_id, fresh_temp_unused|]. split; [done|].
  apply andb_false_iff in Hguard as [Hnone|Hnone].
  - right. apply bool_decide_eq_false in Hnone.
    by apply eq_None_not_Some.
  - left. by destruct ow.
Qed.

(** The PublicationRecord only grows. *)
Lemma publish_record_grows cap ow flt d ids s :
  publication_record s ⊆ publication_record (publish cap ow flt d ids s).2.
Proof.
  unfold publish. destruct (bool_decide _ && negb ow); [done|].
  destruct flt as [|partial| |k]; cbn [snd].
  - rewrite rename_written. cbn. apply union_subseteq_l.
  - done.
  - done.
  - rewrite rename_written. cbn. by rewrite unappend_appended.
Qed.

End publisher.

Section orchestrator.
Import Pipeline.

Variable cap : Capabilities.

(** Case analysis of one run: fetch failed, nothing to publish, publish
    succeeded, or publish failed. *)
Lemma run_cases i s rep s' :
  run cap i s = (rep, s') →
  (∃ err, fetch (response i) = inl err
          ∧ selected rep = [] ∧ rendered rep = [] ∧ outcome rep = Failed err
          ∧ s' = s)
  ∨ ∃ candidates,
      fetch (response i) = inr candidates
      ∧ selected rep = select (score cap) candidates (criteria_of i s)
      ∧ ((omap (render_or_drop cap) (selected rep) = []
          ∧ rendered rep = [] ∧ outcome rep = SkippedEmpty ∧ s' = s)
         ∨ (omap (render_or_drop cap) (selected rep) ≠ []
            ∧ ∃ d, d = {| date_key := run_date_key i;
                          entries := (omap (render_or_drop cap) (selected rep)).*2 |}
              ∧ ((rendered rep = omap (render_or_drop cap) (selected rep)
                  ∧ outcome rep = Published d
                  ∧ publish cap (overwrite i) (fault i) d
                      (id <$> (rendered rep).*1) s = (PublishSucceeded, s'))
                 ∨ ∃ err,
                     rendered rep = [] ∧ outcome rep = Failed err
                     ∧ publish cap (overwrite i) (fault i) d
                         (id <$> (omap (render_or_drop cap) (selected rep)).*1) s
                       = (PublishFailed err, s')))).
Proof.
  unfold run. destruct (fetch (response i)) as [err|candidates].
  { intros [= <- <-]. left. by exists err. }
  destruct (omap (render_or_drop cap)
              (select (score cap) candidates (criteria_of i s)))
    as [|r ren] eqn:Hren.
  { intros [= <- <-]. right. exists candidates. cbn [selected rendered outcome].
    split; [done|]. split; [done|]. left. by rewrite Hren. }
  destruct (publish _ _ _ _ _ _) as [[|err] s''] eqn:Hpub;
    intros [= <- <-]; right; exists candidates;
    cbn [selected rendered outcome]; (split; [done|]); (split; [done|]);
    right; rewrite Hren; (split; [done|]); eexists; (split; [done|]).
  - left. by rewrite <-Hpub.
  - right. exists err. by rewrite <-Hpub.
Qed.

Lemma run_total i s : ∃ rep s', run cap i s = (rep, s').
Proof. destruct (run cap i s) as [rep s']. by exists rep, s'. Qed.

(** What a run selects is not in the PublicationRecord it started from,
    and what it renders it selected. *)
Lemma run_selected_fresh i s rep s' :
  run cap i s = (rep, s') →
  Forall (fun c => id c ∉ publication_record s) (selected rep)
  ∧ (rendered rep).*1 ⊆ selected rep.
Proof.
  intros Hrun. apply run_cases in Hrun
    as [(err & _ & -> & -> & _)|(cands & _ & Hsel & Hrest)]; [done|].
  split.
  - rewrite Hsel. apply (select_dedup (score cap) cands (criteria_of i s)).
  - assert ((omap (render_or_drop cap) (selected rep)).*1 ⊆ selected rep) as Hsub.
    { intros c ([c' e] & -> & Hin)%list_elem_of_fmap.
      by apply elem_of_rendered in Hin as [? _]. }
    destruct Hrest as [(_ & -> & _)|(_ & d & _ & [(-> & _)|(err & -> & _)])];
      [by apply list_subseteq_nil | done | by apply list_subseteq_nil].
Qed.

Lemma run_record_grows i s rep s' :
  run cap i s = (rep, s') → publication_record s ⊆ publication_record s'.
Proof.
  intros Hrun. apply run_cases in Hrun
    as [(err & _ & _ & _ & _ & ->)|(cands & _ & _ & Hrest)]; [done|].
  destruct Hrest as [(_ & _ & _ & ->)|(_ & d & _ & [(_ & _ & Hpub)|(err & _ & _ & Hpub)])];
    [done| |].
  - pose proof (publish_record_grows cap (overwrite i) (fault i) d
                  (id <$> (rendered rep).*1) s) as H.
    by rewrite Hpub in H.
  - pose proof (publish_record_grows cap (overwrite i) (fault i) d
                  (id <$> (omap (render_or_drop cap) (selected rep)).*1) s) as H.
    by rewrite Hpub in H.
Qed.

(** The ids of a published digest are in the PublicationRecord when the
    run returns. *)
Lemma run_published_recorded i s rep s' d :
  run cap i s = (rep, s') → outcome rep = Published d →
  entries d = (rendered rep).*2
  ∧ Forall (fun c => id c ∈ publication_record s') (rendered rep).*1.
Proof.
  intros Hrun Hout. apply run_cases in Hrun
    as [(err & _ & _ & _ & ? & _)|(cands & _ & _ & Hrest)]; [congruence|].
  destruct Hrest as [(_ & _ & ? & _)|(_ & d' & Hd & [(Hren & Hd' & Hpub)|(err & _ & ? & _)])];
    [congruence| |congruence].
  assert (d' = d) as -> by congruence.
  split; [by rewrite Hren, Hd|].
  apply publish_succeeded in Hpub as (_ & _ & -> & _).
  apply Forall_forall. intros c Hc. apply elem_of_union_r, elem_of_list_to_set.
  apply list_elem_of_fmap. by exists c.
Qed.

(** C3: an id that is in the PublicationRecord when a sequence of runs
    starts is dropped by step 1 of the Selector, whatever the feed; no run
    of the sequence selects a candidate with that id or renders one into
    its digest, whose entries are exactly the rendered ones; and the id
    stays in the record. *)
Theorem published_id_never_selected_again inputs s i :
  i ∈ publication_record s →
  (∀ candidates crit,
     dedup_window crit = publication_record s →
     Forall (fun c => id c ≠ i) (select (score cap) candidates crit))
  ∧ Forall (fun rep =>
      Forall (fun c => id c ≠ i) (selected rep)
      ∧ Forall (fun c => id c ≠ i) (rendered rep).*1
      ∧ ∀ d, outcome rep = Published d → entries d = (rendered rep).*2)
      (runs cap inputs s).1
  ∧ i ∈ publication_record (runs cap inputs s).2.
Proof.
  intros Hi. split.
  { intros candidates crit Hwin.
    eapply Forall_impl; [apply select_dedup|]. cbn. intros c Hc Heq.
    by rewrite Hwin, Heq in Hc. }
  revert s Hi. induction inputs as [|inp inputs IH]; intros s Hi; cbn [runs].
  { by split; [constructor|]. }
  destruct (run cap inp s) as [rep s1] eqn:Hrun.
  assert (i ∈ publication_record s1) as Hi1.
  { by eapply run_record_grows. }
  specialize (IH s1 Hi1).
  destruct (runs cap inputs s1) as [reps s2]. cbn [fst snd] in *.
  destruct IH as [IHreps IHrec]. split; [|done].
  constructor; [|done].
  destruct (run_selected_fresh _ _ _ _ Hrun) as [Hfresh Hsub].
  assert (Forall (fun c => id c ≠ i) (selected rep)) as Hsel.
  { eapply Forall_impl; [exact Hfresh|]. cbn. intros c Hc Heq.
    by rewrite Heq in Hc. }
  split; [done|]. split.
  - rewrite Forall_forall in Hsel |- *. intros c Hc. by apply Hsel, Hsub.
  - intros d Hd. by eapply run_published_recorded.
Qed.

(** C4: every entry of a published digest has between 6 and 10 summary
    points and a task block in which its post URL occurs; the entries are
    the conforming renderings of the selected candidates, in their order;
    a selected candidate whose rendering breaks either bound fails with
    TemplateViolation and is not among the rendered ones. *)
Theorem published_entries_conform inp s rep s' d :
  run cap inp s = (rep, s') →
  outcome rep = Published d →
  Forall (fun e =>
      (6 ≤ length (summary_points e) ≤ 10)%nat
      ∧ ∃ before after,
          task_block e = String.app before (String.app (entry_post_url e) after))
    (entries d)
  ∧ entries d = (omap (render_or_drop cap) (selected rep)).*2
  ∧ rendered rep = omap (render_or_drop cap) (selected rep)
  ∧ ∀ c, c ∈ selected rep →
      (¬ (6 ≤ length (summarize cap c) ≤ 10)%nat
       ∨ is_substring (post_url c) (write_task_block cap c) = false) →
      render cap c = inl TemplateViolation ∧ c ∉ (rendered rep).*1.
Proof.
  intros Hrun Hout.
  destruct (run_published_recorded _ _ _ _ _ Hrun Hout) as [Hentries _].
  assert (rendered rep = omap (render_or_drop cap) (selected rep)) as Hren.
  { apply run_cases in Hrun
      as [(err & _ & _ & _ & ? & _)|(cands & _ & _ & Hrest)]; [congruence|].
    destruct Hrest
      as [(_ & _ & ? & _)|(_ & d' & _ & [(? & _)|(err & _ & ? & _)])];
      [congruence | done | congruence]. }
  split; [|split; [by rewrite Hentries, Hren | split; [done|]]].
  - rewrite Hentries, Hren. apply Forall_forall.
    intros e ([c e'] & -> & Hin)%list_elem_of_fmap. cbn.
    apply elem_of_rendered in Hin as [_ Hr].
    apply render_inr in Hr as [Hok _]. by apply entry_conforms_spec.
  - intros c Hc Hbad.
    assert (render cap c = inl TemplateViolation) as Hr.
    { destruct (render cap c) as [err|e] eqn:Hr.
      - by apply render_inl in Hr as [-> _].
      - apply render_inr in Hr as (Hok & Hurl & Hpts & Htask).
        apply entry_conforms_spec in Hok as [Hlen Hsub].
        rewrite Hpts in Hlen. rewrite Htask, Hurl in Hsub.
        apply is_substring_spec in Hsub.
        destruct Hbad as [Hbad|Hbad]; [done|]. by rewrite Hsub in Hbad. }
    split; [done|]. rewrite Hren.
    intros ([c' e] & -> & Hin)%list_elem_of_fmap.
    apply elem_of_rendered in Hin as [_ Hr']. cbn in Hr. congruence.
Qed.

(** C2, amended: after a run has published the digest of a date key, a
    publish in default mode for the same date key returns AlreadyPublished
    and changes nothing, whatever the digest; so a second run for that
    date key leaves files and PublicationRecord as the first left them,
    the one file of that date holding the first digest.  The second run
    ends in AlreadyPublished whenever it has an entry to publish; with no
    entry to publish it is skipped or failed at Fetch, and it is skipped
    when every candidate it fetches is already in the PublicationRecord. *)
Theorem second_run_is_refused inp1 inp2 s rep1 s1 d1 :
  run cap inp1 s = (rep1, s1) →
  outcome rep1 = Published d1 →
  run_date_key inp2 = run_date_key inp1 →
  overwrite inp2 = false →
  files s1 !! path_of cap (run_date_key inp1)
  = Some (render_digest cap (entries d1) (run_date_key inp1))
  ∧ dom (files s1) = {[path_of cap (run_date_key inp1)]} ∪ dom (files s)
  ∧ (∀ flt d ids,
       date_key d = run_date_key inp1 →
       publish cap false flt d ids s1 = (PublishFailed AlreadyPublished, s1))
  ∧ ∃ rep2,
      run cap inp2 s1 = (rep2, s1)
      ∧ (omap (render_or_drop cap) (selected rep2) ≠ [] →
         outcome rep2 = Failed AlreadyPublished)
      ∧ (omap (render_or_drop cap) (selected rep2) = [] →
         outcome rep2 = SkippedEmpty
         ∨ ∃ err, fetch (response inp2) = inl err ∧ outcome rep2 = Failed err)
      ∧ (∀ candidates,
           fetch (response inp2) = inr candidates →
           Forall (fun c => id c ∈ publication_record s1) candidates →
           outcome rep2 = SkippedEmpty).
Proof.
  intros Hrun1 Hout1 Hkey Hmode.
  assert (files s1 = <[path_of cap (run_date_key inp1) :=
            render_digest cap (entries d1) (run_date_key inp1)]> (files s))
    as Hfiles.
  { apply run_cases in Hrun1
      as [(err & _ & _ & _ & ? & _)|(cands & _ & _ & Hrest)]; [congruence|].
    destruct Hrest
      as [(_ & _ & ? & _)|(_ & d' & Hd & [(_ & Hd' & Hpub)|(err & _ & ? & _)])];
      [congruence| |congruence].
    assert (d' = d1) as -> by congruence.
    apply publish_succeeded in Hpub as (Hf & _). by rewrite Hf, Hd. }
  assert (∀ flt d ids,
       date_key d = run_date_key inp1 →
       publish cap false flt d ids s1 = (PublishFailed AlreadyPublished, s1))
    as Hrefuse.
  { intros flt d ids Hd. apply publish_refuses.
    rewrite Hd, Hfiles, lookup_insert_eq. by eexists. }
  split; [by rewrite Hfiles, lookup_insert_eq|].
  split; [by rewrite Hfiles, dom_insert_L|].
  split; [done|].
  destruct (run_total inp2 s1) as (rep2 & s2 & Hrun2).
  exists rep2.
  destruct (run_cases _ _ _ _ Hrun2)
    as [(err & Hf & Hsel & _ & Hout & ->)|(cands & Hf & _ & Hrest)].
  { split; [done|]. rewrite Hsel. split; [done|].
    split; [intros _; right; by exists err | intros cands; congruence]. }
  destruct Hrest
    as [(Hnil & _ & Hout & ->)|(Hne & d & Hd & [(_ & _ & Hpub)|(err & _ & Hout & Hpub)])].
  - split; [done|]. split; [done|]. split; [by left | done].
  - rewrite Hmode, Hrefuse in Hpub; [done|]. by rewrite Hd, Hkey.
  - rewrite Hmode, Hrefuse in Hpub by (by rewrite Hd, Hkey).
    injection Hpub as <- <-. split; [done|]. split; [done|].
    split; [by intros ?|].
    intros cands' Hf' Hall. exfalso. apply Hne.
    assert (cands' = cands) as -> by congruence.
    destruct (run_cases _ _ _ _ Hrun2)
      as [(? & ? & _)|(cands'' & Hf'' & Hsel & _)]; [congruence|].
    assert (cands'' = cands) as -> by congruence.
    rewrite Hsel. by rewrite (select_all_published (score cap)).
Qed.

(** C6: a run that ends in Failed, at Fetch or at Publish, leaves the
    repository exactly as it found it: files, temporary files and
    PublicationRecord; and any run either changes nothing or both writes
    the digest file and records the ids. *)
Theorem failed_run_changes_nothing inp s rep s' :
  run cap inp s = (rep, s') →
  (∀ reason, outcome rep = Failed reason → s' = s)
  ∧ (s' = s
     ∨ ∃ d, outcome rep = Published d
        ∧ files s' = <[path_of cap (run_date_key inp) :=
                         render_digest cap (entries d) (run_date_key inp)]>
                       (files s)
        ∧ temp_files s' = temp_files s
        ∧ publication_record s'
          = publication_record s ∪ list_to_set (id <$> (rendered rep).*1)).
Proof.
  intros Hrun.
  apply run_cases in Hrun
    as [(err & _ & _ & _ & Hout & ->)|(cands & _ & _ & Hrest)]; [by split; [|left]|].
  destruct Hrest
    as [(_ & _ & Hout & ->)|(_ & d & Hd & [(_ & Hout & Hpub)|(err & _ & Hout & Hpub)])].
  - by split; [|left].
  - split; [intros reason; congruence|]. right. exists d. split; [done|].
    apply publish_succeeded in Hpub as (Hf & Ht & Hr & _).
    rewrite Hd in Hf. cbn [date_key entries] in Hf.
    split; [by rewrite Hf, Hd|]. by split.
  - apply publish_failed_unchanged in Hpub as [-> _]. by split; [|left].
Qed.

End orchestrator.

(** ** The theorems at sample runs *)

Lemma run_surjective cap inp s :
  Pipeline.run cap inp s = ((Pipeline.run cap inp s).1, (Pipeline.run cap inp s).2).
Proof. by destruct (Pipeline.run cap inp s). Defined.

Lemma published_id_never_selected_again_witness :
  let s := {| Pipeline.files := ∅; Pipeline.temp_files := ∅;
              Pipeline.publication_record := {["a"%string; "c"%string]} |} in
  let inp := SampleRuns.input "2026-02-02"
               [SampleRuns.p1; SampleRuns.p2; SampleRuns.p3;
                SampleRuns.post "d" "123456789" 5] Pipeline.NoFault in
  "a"%string ∈ Pipeline.publication_record s
  ∧ Pipeline.selected <$> (Pipeline.runs SampleRuns.cap [inp; inp] s).1
    = [[SampleRuns.p2; SampleRuns.post "d" "123456789" 5]; [SampleRuns.p2]]
  ∧ Forall (fun rep =>
      Forall (fun c => Pipeline.id c ≠ "a"%string) (Pipeline.selected rep))
      (Pipeline.runs SampleRuns.cap [inp; inp] s).1.
Proof.
  intros s inp.
  assert ("a"%string ∈ Pipeline.publication_record s) as Ha.
  { cbn. apply elem_of_union_l, elem_of_singleton. reflexivity. }
  split; [exact Ha|]. split; [by vm_compute|].
  destruct (published_id_never_selected_again SampleRuns.cap [inp; inp] s "a" Ha)
    as (_ & Hruns & _).
  eapply Forall_impl; [exact Hruns|]. by intros rep [? _].
Defined.

Lemma published_entries_conform_witness :
  let inp := SampleRuns.input "2026-02-01"
               [SampleRuns.p1; SampleRuns.p2; SampleRuns.p3] Pipeline.NoFault in
  let rep := (Pipeline.run SampleRuns.cap inp SampleRuns.empty_repo).1 in
  Pipeline.selected rep = [SampleRuns.p3; SampleRuns.p2; SampleRuns.p1]
  ∧ (Pipeline.rendered rep).*1 = [SampleRuns.p3; SampleRuns.p1]
  ∧ Pipeline.render SampleRuns.cap SampleRuns.p2 = inl Pipeline.TemplateViolation
  ∧ ∃ d,
      Pipeline.outcome rep = Pipeline.Published d
      ∧ length (Pipeline.entries d) = 2%nat
      ∧ Forall (fun e =>
          (6 ≤ length (Pipeline.summary_points e) ≤ 10)%nat
          ∧ ∃ before after,
              Pipeline.task_block e
              = String.app before (String.app (Pipeline.entry_post_url e) after))
          (Pipeline.entries d).
Proof.
  intros inp rep.
  split; [by vm_compute|]. split; [by vm_compute|]. split; [by vm_compute|].
  eexists. split; [by vm_compute|]. split; [by vm_compute|].
  by apply (published_entries_conform SampleRuns.cap inp SampleRuns.empty_repo
              rep _ _ (run_surjective _ _ _) eq_refl).
Defined.

Lemma second_run_is_refused_witness :
  let inp1 := SampleRuns.input "2026-02-01"
                [SampleRuns.p1; SampleRuns.p2; SampleRuns.p3] Pipeline.NoFault in
  let inp2 := SampleRuns.input "2026-02-01"
                [SampleRuns.post "d" "123456789" 40] Pipeline.NoFault in
  let first := Pipeline.run SampleRuns.cap inp1 SampleRuns.empty_repo in
  let second := Pipeline.run SampleRuns.cap inp2 first.2 in
  (∃ d, Pipeline.outcome first.1 = Pipeline.Published d)
  ∧ Pipeline.selected second.1 = [SampleRuns.post "d" "123456789" 40]
  ∧ Pipeline.outcome second.1 = Pipeline.Failed Pipeline.AlreadyPublished
  ∧ second.2 = first.2
  ∧ Pipeline.files first.2 !! "docs/reports/2026-02-01.md"%string
    = Some "2026-02-01:post c,post a"%string.
Proof.
  intros inp1 inp2 first second.
  split; [eexists; by vm_compute|].
  split; [by vm_compute|].
  destruct (second_run_is_refused SampleRuns.cap inp1 inp2 SampleRuns.empty_repo
              first.1 first.2 _ (run_surjective _ _ _) eq_refl eq_refl eq_refl)
    as (Hfile & _ & _ & rep2 & Hrun2 & Hsome & _).
  assert (second = (rep2, first.2)) as Hsecond by exact Hrun2.
  rewrite Hsecond. cbn [fst snd].
  split; [|split; [done|exact Hfile]].
  apply Hsome.
  assert (Pipeline.selected rep2 = [SampleRuns.post "d" "123456789" 40]) as ->.
  { change rep2 with (rep2, first.2).1. rewrite <-Hsecond. by vm_compute. }
  by vm_compute.
Defined.

(** C2, as the claim states it, fails: the second run of the same feed for
    the same date key finds every candidate in the PublicationRecord,
    selects nothing and is skipped; its publish is never reached and
    AlreadyPublished is not returned. *)
Lemma rerun_of_the_same_feed_is_skipped :
  let inp := SampleRuns.input "2026-02-01"
               [SampleRuns.p1; SampleRuns.p3] Pipeline.NoFault in
  let first := Pipeline.run SampleRuns.cap inp SampleRuns.empty_repo in
  let second := Pipeline.run SampleRuns.cap inp first.2 in
  Pipeline.overwrite inp = false
  ∧ (∃ d, Pipeline.outcome first.1 = Pipeline.Published d)
  ∧ Pipeline.selected second.1 = []
  ∧ Pipeline.outcome second.1 = Pipeline.SkippedEmpty
  ∧ Pipeline.outcome second.1 ≠ Pipeline.Failed Pipeline.AlreadyPublished.
Proof.
  intros inp first second.
  split; [reflexivity|]. split; [eexists; by vm_compute|].
  split; [by vm_compute|].
  assert (Pipeline.outcome second.1 = Pipeline.SkippedEmpty) as Hout
    by (by vm_compute).
  split; [exact Hout|]. by rewrite Hout.
Qed.

Lemma failed_run_changes_nothing_witness :
  let inp := SampleRuns.input "2026-02-01"
               [SampleRuns.p1; SampleRuns.p2; SampleRuns.p3]
               (Pipeline.AppendFails 1) in
  let result := Pipeline.run SampleRuns.cap inp SampleRuns.empty_repo in
  Pipeline.outcome result.1 = Pipeline.Failed Pipeline.PublishIOError
  ∧ result.2 = SampleRuns.empty_repo.
Proof.
  intros inp result.
  assert (Pipeline.outcome result.1 = Pipeline.Failed Pipeline.PublishIOError)
    as Hout by (by vm_compute).
  split; [exact Hout|].
  destruct (failed_run_changes_nothing SampleRuns.cap inp SampleRuns.empty_repo
              result.1 result.2 (run_surjective _ _ _))
    as [Hfailed _].
  exact (Hfailed _ Hout).
Defined.

(** ** The scenarios of the specification *)

Section scenarios.
Import Pipeline.

(** Fifteen candidates, three flagged, two already published: ten
    qualify and all ten are selected. *)
Example scenario_fifteen :
  length (qualifying SampleRuns.feed15 SampleRuns.eight_to_twelve) = 10%nat
  ∧ select fetched_at SampleRuns.feed15 SampleRuns.eight_to_twelve
    = reverse (drop 5 SampleRuns.feed15).
Proof. by vm_compute. Qed.

(** Three candidates and a minimum of eight: all three are returned,
    none is made up. *)
Example scenario_three :
  selected (run SampleRuns.cap
              (SampleRuns.input "2026-02-01"
                 [SampleRuns.p1; SampleRuns.p2; SampleRuns.p3] NoFault)
              SampleRuns.empty_repo).1
  = [SampleRuns.p3; SampleRuns.p2; SampleRuns.p1].
Proof. by vm_compute. Qed.

(** The only candidate renders with four summary points: the run is
    skipped and nothing is written. *)
Example scenario_four_points :
  run SampleRuns.cap (SampleRuns.input "2026-02-01" [SampleRuns.p2] NoFault)
    SampleRuns.empty_repo
  = ({| selected := [SampleRuns.p2]; rendered := []; outcome := SkippedEmpty |},
     SampleRuns.empty_repo).
Proof. by vm_compute. Qed.

(** A failing rename after the temporary file was written. *)
Example scenario_rename_fails :
  run SampleRuns.cap (SampleRuns.input "2026-02-01" [SampleRuns.p1] RenameFails)
    SampleRuns.empty_repo
  = ({| selected := [SampleRuns.p1]; rendered := [];
        outcome := Failed PublishIOError |},
     SampleRuns.empty_repo).
Proof. by vm_compute. Qed.

End scenarios.
